(** * zkUSD collateral vault

    A shallow embedding of [src/zkusd-vault.ts] (class [ZkUsdVault]):
    the health-factor arithmetic over o1js [Field] / [UInt64] values and
    the vault's state-transition methods, followed by the properties
    checked against the specification.

    Conventions.
    - An o1js [Field] is an element of the Pallas base field; it is
      modelled by its canonical representative in [Z], every operation
      reducing modulo [Field.ORDER].
    - An o1js [UInt64] is a [Z] in [0, 2^64); [add], [sub] and [mul] are
      the library's overflow-checked operations and fail outside that
      range.  On range-checked operands the [UInt64] assertions
      compare the integers the values denote.  [UInt64.fromFields]
      wraps a field element without a range check: the health factor
      is such a value, and the guard of [mintZkUsd] and
      [redeemCollateral] on it is what a proof enforces, the 64-bit
      range check of the field difference
      ([UInt64.assertGreaterThanOrEqual_wrapped]).
    - A failed assertion aborts the whole method: methods return a
      [result], the error naming the assertion that failed first.
    - Calls into other contracts (token ledger, account updates, events)
      are recorded, in program order, in the list of effects a method
      returns.  Their own failure is outside this contract. *)

From Stdlib Require Import ZArith Lia List Bool String.
Import ListNotations.
Open Scope Z_scope.

(** ** Errors and the result monad *)

(** The first ten constructors are the keys of [ZkUsdVaultErrors]; the
    others name the failures of the library operations the contract
    calls and of [fieldIntegerDiv]'s own assertions. *)
Inductive Error : Set :=
| AMOUNT_ZERO
| BALANCE_ZERO
| HEALTH_FACTOR_TOO_LOW
| HEALTH_FACTOR_TOO_HIGH
| AMOUNT_EXCEEDS_DEBT
| INVALID_SECRET
| INVALID_ORACLE_SIG
| ORACLE_EXPIRED
| INSUFFICIENT_BALANCE
| INSUFFICIENT_COLLATERAL
| DivisionByZero          (* 'Division by zero' in fieldIntegerDiv *)
| FieldAssertionFailed    (* an unlabelled Field assertion *)
| UInt64Overflow          (* UInt64.add / UInt64.mul out of range *)
| UInt64Underflow         (* UInt64.sub below zero *)
| PreconditionFailed.     (* State.requireEquals mismatch *)

Inductive result (A : Type) : Type :=
| Ok (a : A)
| Err (e : Error).

Arguments Ok {A} a.
Arguments Err {A} e.

Definition bind {A B : Type} (r : result A) (k : A -> result B) : result B :=
  match r with
  | Ok a => k a
  | Err e => Err e
  end.

Notation "x <- r ;; k" := (bind r (fun x => k))
  (at level 61, r at next level, right associativity).
Notation "r ;;; k" := (bind r (fun _ => k))
  (at level 61, right associativity).

(** [assert b e]: continue when [b] holds, abort with [e] otherwise. *)
Definition assert (b : bool) (e : Error) : result unit :=
  if b then Ok tt else Err e.

Definition isOk {A : Type} (r : result A) : bool :=
  match r with Ok _ => true | Err _ => false end.

(** ** o1js [Field] *)

Module Field.

(** Order of the Pallas base field. *)
Definition ORDER : Z :=
  28948022309329048855892746252171976963363056481941560715954676764349967630337.

Definition canonical (x : Z) : Prop := 0 <= x < ORDER.

Definition add (x y : Z) : Z := (x + y) mod ORDER.
Definition sub (x y : Z) : Z := (x - y) mod ORDER.
Definition mul (x y : Z) : Z := (x * y) mod ORDER.
Definition equals (x y : Z) : bool := x =? y.

(** Comparisons of canonical representatives. *)
Definition lessThan (x y : Z) : bool := x <? y.
Definition greaterThanOrEqual (x y : Z) : bool := y <=? x.

End Field.

(** [Provable.if]. *)
Definition Provable_if {A : Type} (b : bool) (x y : A) : A :=
  if b then x else y.

(** ** o1js [UInt64] *)

Module UInt64.

Definition NUM_BITS : Z := 64.
Definition MAXINT : Z := 2 ^ NUM_BITS - 1.
Definition zero : Z := 0.

Definition inRange (x : Z) : Prop := 0 <= x <= MAXINT.
Definition inRangeb (x : Z) : bool := (0 <=? x) && (x <=? MAXINT).

Definition add (x y : Z) : result Z :=
  if inRangeb (x + y) then Ok (x + y) else Err UInt64Overflow.

Definition sub (x y : Z) : result Z :=
  if inRangeb (x - y) then Ok (x - y) else Err UInt64Underflow.

Definition mul (x y : Z) : result Z :=
  if inRangeb (x * y) then Ok (x * y) else Err UInt64Overflow.

Definition div (x y : Z) : result Z :=
  if y =? 0 then Err DivisionByZero else Ok (x / y).

Definition greaterThan (x y : Z) : bool := y <? x.

Definition assertGreaterThan (x y : Z) (e : Error) : result unit :=
  assert (y <? x) e.
Definition assertGreaterThanOrEqual (x y : Z) (e : Error) : result unit :=
  assert (y <=? x) e.
Definition assertLessThanOrEqual (x y : Z) (e : Error) : result unit :=
  assert (x <=? y) e.

(** [assertGreaterThanOrEqual] as a proof enforces it when the receiver
    was wrapped by [UInt64.fromFields] and so is not known to fit in 64
    bits: the field difference [x - y] is range-checked into [NUM_BITS]
    bits.  On two range-checked operands this is the comparison
    above. *)
Definition assertGreaterThanOrEqual_wrapped (x y : Z) (e : Error)
  : result unit :=
  assert (inRangeb (Field.sub x y)) e.

End UInt64.

(** ** Contract constants *)

Definition COLLATERAL_RATIO : Z := 150.
Definition COLLATERAL_RATIO_PRECISION : Z := 100.
Definition PROTOCOL_FEE_PRECISION : Z := 100.
Definition UNIT_PRECISION : Z := 1000000000.
Definition MIN_HEALTH_FACTOR : Z := 100.

(** ** Health-factor arithmetic *)

(** [fieldIntegerDiv]: the quotient is witnessed out of circuit with
    BigInt division (which truncates), then the three constraints are
    asserted on the field elements. *)
Definition fieldIntegerDiv (x y : Z) : result Z :=
  assert (negb (Field.equals y 0)) DivisionByZero ;;;
  let q := Z.quot x y in
  let r := Field.sub x (Field.mul q y) in
  assert (Field.greaterThanOrEqual r 0) FieldAssertionFailed ;;;
  assert (Field.lessThan r y) FieldAssertionFailed ;;;
  assert (Field.equals x (Field.add (Field.mul q y) r)) FieldAssertionFailed ;;;
  Ok q.

Definition safeDiv (numerator denominator : Z) : result Z :=
  let isDenominatorZero := Field.equals denominator 0 in
  let safeDenominator := Provable_if isDenominatorZero 1 denominator in
  divisionResult <- fieldIntegerDiv numerator safeDenominator ;;
  Ok (Provable_if isDenominatorZero UInt64.MAXINT divisionResult).

Definition calculateUsdValue (amount price : Z) : result Z :=
  let numCollateralValue := Field.mul amount price in
  fieldIntegerDiv numCollateralValue UNIT_PRECISION.

Definition calculateMaxAllowedDebt (collateralValue : Z) : result Z :=
  let numCollateralValue := Field.mul collateralValue COLLATERAL_RATIO_PRECISION in
  q <- fieldIntegerDiv numCollateralValue COLLATERAL_RATIO ;;
  Ok (Field.mul q COLLATERAL_RATIO_PRECISION).

Definition calculateHealthFactor (collateralAmount debtAmount price : Z)
  : result Z :=
  collateralValue <- calculateUsdValue collateralAmount price ;;
  maxAllowedDebt <- calculateMaxAllowedDebt collateralValue ;;
  let debtInFields := debtAmount in
  safeDiv maxAllowedDebt debtInFields.

(** The health factor as the specification writes it: plain integers,
    floor division, and the maximum value for a zero debt. *)
Definition spec_safeDiv (numerator denominator : Z) : Z :=
  if denominator =? 0 then UInt64.MAXINT else numerator / denominator.

Definition spec_maxAllowedDebt (collateral price : Z) : Z :=
  (collateral * price / UNIT_PRECISION * 100 / 150) * 100.

Definition spec_healthFactor (collateral debt price : Z) : Z :=
  spec_safeDiv (spec_maxAllowedDebt collateral price) debt.

(** ** Vault state, context, events and effects *)

Definition PublicKey : Set := string.

Definition ORACLE_PUBLIC_KEY : PublicKey :=
  "B62qkwLvZ6e5NzRgQwkTaA9m88fTUZLHmpwvmCQEqbp5KcAAfqFAaf9"%string.
Definition ZKUSD_TOKEN_ADDRESS : PublicKey :=
  "B62qry2wngUSGZqQn9erfnA9rZPn4cMbDG1XPasGdK1EtKQAxmgjDtt"%string.
Definition PROTOCOL_VAULT_ADDRESS : PublicKey :=
  "B62qkJvkDUiw1c7kKn3PBa9YjNFiBgSA6nbXUJiVuSU128mKH4DiSih"%string.

(** The four [@state] fields of the contract. *)
Record VaultState : Set := mkVault {
  collateralAmount : Z;
  debtAmount : Z;
  ownershipHash : Z;
  interactionFlag : bool
}.

(** What a method reads from outside its own state: the contract's
    address and account balance, the transaction sender, and the
    answers of the oracle and of the protocol vault. *)
Record Context : Set := mkContext {
  address : PublicKey;
  sender : PublicKey;
  balance : Z;
  oraclePrice : Z;
  protocolFee : Z
}.

Inductive Event : Set :=
| NewVaultEvent (vaultAddress : PublicKey)
| DepositCollateralEvent (vaultAddress : PublicKey)
    (amountDeposited vaultCollateralAmount vaultDebtAmount : Z)
| RedeemCollateralEvent (vaultAddress : PublicKey)
    (amountRedeemed vaultCollateralAmount vaultDebtAmount : Z)
| MintZkUsdEvent (vaultAddress : PublicKey)
    (amountMinted vaultCollateralAmount vaultDebtAmount : Z)
| BurnZkUsdEvent (vaultAddress : PublicKey)
    (amountBurned vaultCollateralAmount vaultDebtAmount : Z)
| LiquidateEvent (vaultAddress liquidator : PublicKey)
    (vaultCollateralLiquidated vaultDebtRepaid price : Z).

Inductive Effect : Set :=
| Send (from to : PublicKey) (amount : Z)        (* MINA moved between accounts *)
| TokenMint (recipient : PublicKey) (amount : Z) (* ZkUsdToken.mint *)
| TokenBurn (from : PublicKey) (amount : Z)      (* ZkUsdToken.burn *)
| EmitEvent (e : Event).

Definition Outcome : Type := result (VaultState * list Effect).

(** A method either commits its new state or, on a failed assertion,
    leaves the persisted state as it was. *)
Definition commit (st : VaultState) (r : Outcome) : VaultState :=
  match r with
  | Ok (st', _) => st'
  | Err _ => st
  end.

Definition set_collateralAmount (v : Z) (st : VaultState) : VaultState :=
  mkVault v (debtAmount st) (ownershipHash st) (interactionFlag st).
Definition set_debtAmount (v : Z) (st : VaultState) : VaultState :=
  mkVault (collateralAmount st) v (ownershipHash st) (interactionFlag st).
Definition set_interactionFlag (b : bool) (st : VaultState) : VaultState :=
  mkVault (collateralAmount st) (debtAmount st) (ownershipHash st) b.

Definition wfState (st : VaultState) : Prop :=
  UInt64.inRange (collateralAmount st) /\ UInt64.inRange (debtAmount st).

Definition wfContext (ctx : Context) : Prop :=
  UInt64.inRange (balance ctx) /\ UInt64.inRange (oraclePrice ctx) /\
  UInt64.inRange (protocolFee ctx).

(** ** The contract methods *)

Section ZkUsdVault.

(** [Poseidon.hash], the library's hash function on lists of field
    elements. *)
Variable Poseidon_hash : list Z -> Z.

Definition deploy (ctx : Context) (secret : Z) : Outcome :=
  Ok (mkVault 0 0 (Poseidon_hash [secret]) false,
      [EmitEvent (NewVaultEvent (address ctx))]).

Definition depositCollateral (ctx : Context) (st : VaultState)
    (amount secret : Z) : Outcome :=
  let collateralAmount := collateralAmount st in
  let debtAmount := debtAmount st in
  let ownershipHash := ownershipHash st in
  UInt64.assertGreaterThan amount UInt64.zero AMOUNT_ZERO ;;;
  assert (Field.equals ownershipHash (Poseidon_hash [secret])) INVALID_SECRET ;;;
  let collateralDeposit := Send (sender ctx) (address ctx) amount in
  newCollateral <- UInt64.add collateralAmount amount ;;
  Ok (set_collateralAmount newCollateral st,
      [collateralDeposit;
       EmitEvent (DepositCollateralEvent (address ctx) amount
                    collateralAmount debtAmount)]).

Definition redeemCollateral (ctx : Context) (st : VaultState)
    (amount secret : Z) : Outcome :=
  let collateralAmount := collateralAmount st in
  let debtAmount := debtAmount st in
  let ownershipHash := ownershipHash st in
  let balance := balance ctx in
  let price := oraclePrice ctx in
  UInt64.assertGreaterThan balance UInt64.zero BALANCE_ZERO ;;;
  assert (Field.equals ownershipHash (Poseidon_hash [secret])) INVALID_SECRET ;;;
  UInt64.assertLessThanOrEqual amount collateralAmount INSUFFICIENT_COLLATERAL ;;;
  remainingCollateral <- UInt64.sub collateralAmount amount ;;
  healthFactor <- calculateHealthFactor remainingCollateral debtAmount price ;;
  UInt64.assertGreaterThanOrEqual_wrapped healthFactor MIN_HEALTH_FACTOR
    HEALTH_FACTOR_TOO_LOW ;;;
  stakingRewards <- UInt64.sub balance collateralAmount ;;
  let currentProtocolFee := protocolFee ctx in
  feeNumerator <- UInt64.mul stakingRewards currentProtocolFee ;;
  protocolFee <- UInt64.div feeNumerator PROTOCOL_FEE_PRECISION ;;
  (* AccountUpdate.createIf: the fee transfer exists only for a
     positive fee *)
  let protocolFeeUpdate :=
    if UInt64.greaterThan protocolFee 0
    then [Send (address ctx) PROTOCOL_VAULT_ADDRESS protocolFee]
    else [] in
  stakingRewardsDividend <- UInt64.sub stakingRewards protocolFee ;;
  payout <- UInt64.add amount stakingRewardsDividend ;;
  Ok (set_collateralAmount remainingCollateral st,
      protocolFeeUpdate ++
      [Send (address ctx) (sender ctx) payout;
       EmitEvent (RedeemCollateralEvent (address ctx) amount
                    collateralAmount debtAmount)]).

Definition mintZkUsd (ctx : Context) (st : VaultState)
    (recipient : PublicKey) (amount secret : Z) : Outcome :=
  let collateralAmount := collateralAmount st in
  let debtAmount := debtAmount st in
  let ownershipHash := ownershipHash st in
  let price := oraclePrice ctx in
  UInt64.assertGreaterThan amount UInt64.zero AMOUNT_ZERO ;;;
  assert (Field.equals ownershipHash (Poseidon_hash [secret])) INVALID_SECRET ;;;
  hypotheticalDebt <- UInt64.add debtAmount amount ;;
  healthFactor <- calculateHealthFactor collateralAmount hypotheticalDebt price ;;
  UInt64.assertGreaterThanOrEqual_wrapped healthFactor MIN_HEALTH_FACTOR
    HEALTH_FACTOR_TOO_LOW ;;;
  let minted := TokenMint recipient amount in
  newDebt <- UInt64.add debtAmount amount ;;
  Ok (set_interactionFlag true (set_debtAmount newDebt st),
      [minted;
       EmitEvent (MintZkUsdEvent (address ctx) amount
                    collateralAmount debtAmount)]).

Definition burnZkUsd (ctx : Context) (st : VaultState)
    (amount secret : Z) : Outcome :=
  let collateralAmount := collateralAmount st in
  let debtAmount := debtAmount st in
  let ownershipHash := ownershipHash st in
  UInt64.assertGreaterThan amount UInt64.zero AMOUNT_ZERO ;;;
  assert (Field.equals ownershipHash (Poseidon_hash [secret])) INVALID_SECRET ;;;
  UInt64.assertGreaterThanOrEqual debtAmount amount AMOUNT_EXCEEDS_DEBT ;;;
  newDebt <- UInt64.sub debtAmount amount ;;
  Ok (set_debtAmount newDebt st,
      [TokenBurn (sender ctx) amount;
       EmitEvent (BurnZkUsdEvent (address ctx) amount
                    collateralAmount debtAmount)]).

Definition liquidate (ctx : Context) (st : VaultState) : Outcome :=
  let collateralAmount := collateralAmount st in
  let debtAmount := debtAmount st in
  let price := oraclePrice ctx in
  healthFactor <- calculateHealthFactor collateralAmount debtAmount price ;;
  UInt64.assertLessThanOrEqual healthFactor MIN_HEALTH_FACTOR
    HEALTH_FACTOR_TOO_HIGH ;;;
  Ok (set_debtAmount UInt64.zero (set_collateralAmount UInt64.zero st),
      [Send (address ctx) (sender ctx) collateralAmount;
       TokenBurn (sender ctx) debtAmount;
       EmitEvent (LiquidateEvent (address ctx) (sender ctx)
                    collateralAmount debtAmount price)]).

Definition getHealthFactor (ctx : Context) (st : VaultState) : result Z :=
  calculateHealthFactor (collateralAmount st) (debtAmount st) (oraclePrice ctx).

Definition assertInteractionFlag (st : VaultState) : result (VaultState * bool) :=
  assert (Bool.eqb (interactionFlag st) true) PreconditionFailed ;;;
  Ok (set_interactionFlag false st, true).

(** The contract's callable methods, and their dispatch. *)
Inductive Method : Set :=
| DepositCollateral (amount secret : Z)
| RedeemCollateral (amount secret : Z)
| MintZkUsd (recipient : PublicKey) (amount secret : Z)
| BurnZkUsd (amount secret : Z)
| Liquidate
| GetHealthFactor
| AssertInteractionFlag.

Definition invoke (ctx : Context) (st : VaultState) (m : Method) : Outcome :=
  match m with
  | DepositCollateral amount secret => depositCollateral ctx st amount secret
  | RedeemCollateral amount secret => redeemCollateral ctx st amount secret
  | MintZkUsd recipient amount secret => mintZkUsd ctx st recipient amount secret
  | BurnZkUsd amount secret => burnZkUsd ctx st amount secret
  | Liquidate => liquidate ctx st
  | GetHealthFactor =>
      hf <- getHealthFactor ctx st ;; Ok (st, [])
  | AssertInteractionFlag =>
      r <- assertInteractionFlag st ;; Ok (fst r, [])
  end.

End ZkUsdVault.

(** A stand-in for Poseidon, used to run the methods on concrete
    inputs. *)
Definition testHash (l : list Z) : Z :=
  fold_left (fun acc x => Field.add (Field.mul acc 31) (Field.add x 1)) l 7.

(** ** Auxiliary definitions for the statements *)

(** The presented secret opens the vault. *)
Definition opens (Poseidon_hash : list Z -> Z) (st : VaultState)
    (secret : Z) : Prop :=
  ownershipHash st = Poseidon_hash [secret].

(** The part of [redeemCollateral] that follows the health-factor
    check: the split of the accrued yield and the payout. *)
Definition redeemPayout (ctx : Context) (st : VaultState)
    (amount remainingCollateral : Z) : Outcome :=
  stakingRewards <- UInt64.sub (balance ctx) (collateralAmount st) ;;
  feeNumerator <- UInt64.mul stakingRewards (protocolFee ctx) ;;
  protocolFee <- UInt64.div feeNumerator PROTOCOL_FEE_PRECISION ;;
  let protocolFeeUpdate :=
    if UInt64.greaterThan protocolFee 0
    then [Send (address ctx) PROTOCOL_VAULT_ADDRESS protocolFee]
    else [] in
  stakingRewardsDividend <- UInt64.sub stakingRewards protocolFee ;;
  payout <- UInt64.add amount stakingRewardsDividend ;;
  Ok (set_collateralAmount remainingCollateral st,
      protocolFeeUpdate ++
      [Send (address ctx) (sender ctx) payout;
       EmitEvent (RedeemCollateralEvent (address ctx) amount
                    (collateralAmount st) (debtAmount st))]).

(** The protocol's share of the accrued yield. *)
Definition yieldFee (ctx : Context) (st : VaultState) : Z :=
  (balance ctx - collateralAmount st) * protocolFee ctx
    / PROTOCOL_FEE_PRECISION.

(** The yield split can be computed in [UInt64]: the balance covers
    the collateral, the product with the fee fits, and the fee share
    does not exceed the yield. *)
Definition payoutComputable (ctx : Context) (st : VaultState) : Prop :=
  collateralAmount st <= balance ctx /\
  (balance ctx - collateralAmount st) * protocolFee ctx <= UInt64.MAXINT /\
  yieldFee ctx st <= balance ctx - collateralAmount st.


(** Sample vaults and contexts. *)

Definition aliceVault : VaultState :=
  mkVault 100000000000 5000000000 (testHash [42]) false.

Definition aliceCtx : Context :=
  mkContext "vault"%string "alice"%string 100000000000 1000000000 20.

Definition fullVault : VaultState :=
  mkVault UInt64.MAXINT 0 (testHash [42]) false.

Definition yieldCtx : Context :=
  mkContext "vault"%string "alice"%string 400000100000000000 1000000000 50.

Definition burntVault : VaultState :=
  mkVault 100000000000 4000000000 (testHash [42]) false.

Definition burnEffects : list Effect :=
  [TokenBurn "alice"%string 1000000000;
   EmitEvent (BurnZkUsdEvent "vault"%string 1000000000 100000000000 5000000000)].

(** ** Definitions for the further properties *)

(** [fieldIntegerDiv] with the quotient left to the prover.  In a proof
    [Provable.witness] only tells how an honest prover computes [q];
    the circuit accepts every [q] that passes the assertions. *)
Definition fieldIntegerDivWith (q x y : Z) : result Z :=
  assert (negb (Field.equals y 0)) DivisionByZero ;;;
  let r := Field.sub x (Field.mul q y) in
  assert (Field.greaterThanOrEqual r 0) FieldAssertionFailed ;;;
  assert (Field.lessThan r y) FieldAssertionFailed ;;;
  assert (Field.equals x (Field.add (Field.mul q y) r)) FieldAssertionFailed ;;;
  Ok q.

(** MINA leaving and entering an account through a list of effects. *)
Definition sentBy (a : PublicKey) (effs : list Effect) : Z :=
  fold_right
    (fun e acc =>
       match e with
       | Send from _ amount => if String.eqb from a then amount + acc else acc
       | _ => acc
       end) 0 effs.

Definition receivedBy (a : PublicKey) (effs : list Effect) : Z :=
  fold_right
    (fun e acc =>
       match e with
       | Send _ to amount => if String.eqb to a then amount + acc else acc
       | _ => acc
       end) 0 effs.

(** The vault's account balance once the transfers of a method are
    applied. *)
Definition balanceAfter (ctx : Context) (effs : list Effect) : Z :=
  balance ctx + receivedBy (address ctx) effs - sentBy (address ctx) effs.

(** The vault amounts an event reports. *)
Definition reportedAmounts (e : Event) : option (Z * Z) :=
  match e with
  | NewVaultEvent _ => None
  | DepositCollateralEvent _ _ c d => Some (c, d)
  | RedeemCollateralEvent _ _ c d => Some (c, d)
  | MintZkUsdEvent _ _ c d => Some (c, d)
  | BurnZkUsdEvent _ _ c d => Some (c, d)
  | LiquidateEvent _ _ c d _ => Some (c, d)
  end.

(** The states a vault deployed with [secret] can be in: the deployed
    state, and every state a successful method call leads to. *)
Inductive reachable (Poseidon_hash : list Z -> Z) (secret : Z)
  : VaultState -> Prop :=
| reachable_deploy (ctx : Context) (st : VaultState) (effs : list Effect) :
    deploy Poseidon_hash ctx secret = Ok (st, effs) ->
    reachable Poseidon_hash secret st
| reachable_invoke (ctx : Context) (st st' : VaultState) (m : Method)
    (effs : list Effect) :
    reachable Poseidon_hash secret st ->
    invoke Poseidon_hash ctx st m = Ok (st', effs) ->
    reachable Poseidon_hash secret st'.

(** The invariant of a vault deployed with [secret]. *)
Definition wfInitial (Poseidon_hash : list Z -> Z) (secret : Z)
    (st : VaultState) : Prop :=
  wfState st /\ ownershipHash st = Poseidon_hash [secret].

(** * Properties *)

(** ** Basic facts about the result monad and the checked operations *)

Lemma assert_true (b : bool) (e : Error) : b = true -> assert b e = Ok tt.
Proof. intros ->. reflexivity. Qed.

Lemma assert_false (b : bool) (e : Error) : b = false -> assert b e = Err e.
Proof. intros ->. reflexivity. Qed.

Lemma bind_Ok_inv {A B : Type} (r : result A) (k : A -> result B) (b : B) :
  bind r k = Ok b -> exists a, r = Ok a /\ k a = Ok b.
Proof. destruct r as [a|e]; simpl; intros H; [eauto | discriminate]. Qed.

Lemma assert_Ok_inv (b : bool) (e : Error) (u : unit) :
  assert b e = Ok u -> b = true.
Proof. destruct b; simpl; [reflexivity | discriminate]. Qed.

Lemma inRangeb_iff (x : Z) : UInt64.inRangeb x = true <-> UInt64.inRange x.
Proof.
  unfold UInt64.inRangeb, UInt64.inRange.
  rewrite andb_true_iff, Z.leb_le, Z.leb_le. reflexivity.
Qed.

Lemma inRangeb_false_iff (x : Z) :
  UInt64.inRangeb x = false <-> ~ UInt64.inRange x.
Proof.
  rewrite <- inRangeb_iff. destruct (UInt64.inRangeb x); intuition congruence.
Qed.

Lemma UInt64_add_ok (x y : Z) :
  UInt64.inRange (x + y) -> UInt64.add x y = Ok (x + y).
Proof. intros H. unfold UInt64.add. apply inRangeb_iff in H. now rewrite H. Qed.

Lemma UInt64_add_overflow (x y : Z) :
  ~ UInt64.inRange (x + y) -> UInt64.add x y = Err UInt64Overflow.
Proof. intros H. unfold UInt64.add. apply inRangeb_false_iff in H. now rewrite H. Qed.

Lemma UInt64_add_inv (x y z : Z) :
  UInt64.add x y = Ok z -> z = x + y /\ UInt64.inRange (x + y).
Proof.
  unfold UInt64.add. destruct (UInt64.inRangeb (x + y)) eqn:E; intros H;
    [|discriminate].
  injection H as <-. split; [reflexivity | now apply inRangeb_iff].
Qed.

Lemma UInt64_sub_ok (x y : Z) :
  UInt64.inRange (x - y) -> UInt64.sub x y = Ok (x - y).
Proof. intros H. unfold UInt64.sub. apply inRangeb_iff in H. now rewrite H. Qed.

Lemma UInt64_sub_inv (x y z : Z) :
  UInt64.sub x y = Ok z -> z = x - y /\ UInt64.inRange (x - y).
Proof.
  unfold UInt64.sub. destruct (UInt64.inRangeb (x - y)) eqn:E; intros H;
    [|discriminate].
  injection H as <-. split; [reflexivity | now apply inRangeb_iff].
Qed.

Lemma UInt64_mul_ok (x y : Z) :
  UInt64.inRange (x * y) -> UInt64.mul x y = Ok (x * y).
Proof. intros H. unfold UInt64.mul. apply inRangeb_iff in H. now rewrite H. Qed.

Lemma MAXINT_value : UInt64.MAXINT = 18446744073709551615.
Proof. reflexivity. Qed.

(** ** Field arithmetic on small values *)

Lemma ORDER_pos : 0 < Field.ORDER.
Proof. reflexivity. Qed.

(** Products of a 128-bit value by the contract's constants do not wrap. *)
Lemma ORDER_large : 2 ^ 136 < Field.ORDER.
Proof. reflexivity. Qed.

Lemma Field_mul_small (x y : Z) :
  0 <= x * y < Field.ORDER -> Field.mul x y = x * y.
Proof. intros H. unfold Field.mul. now apply Z.mod_small. Qed.

Lemma Field_sub_small (x y : Z) :
  0 <= x - y < Field.ORDER -> Field.sub x y = x - y.
Proof. intros H. unfold Field.sub. now apply Z.mod_small. Qed.

Lemma Field_add_small (x y : Z) :
  0 <= x + y < Field.ORDER -> Field.add x y = x + y.
Proof. intros H. unfold Field.add. now apply Z.mod_small. Qed.

Lemma Field_mul_canonical (x y : Z) : Field.canonical (Field.mul x y).
Proof. unfold Field.canonical, Field.mul. apply Z.mod_pos_bound, ORDER_pos. Qed.

(** ** [fieldIntegerDiv] *)

Section Division.

Variables x y : Z.
Hypothesis Hx : Field.canonical x.
Hypothesis Hy : 0 < y.

Let q := x / y.

Lemma quotient_bounds : 0 <= q /\ 0 <= q * y <= x /\ x - q * y = x mod y.
Proof.
  unfold q. destruct Hx as [Hx0 _].
  pose proof (Z.div_pos x y Hx0 Hy).
  pose proof (Z.mod_pos_bound x y Hy).
  pose proof (Z.div_mod x y ltac:(lia)).
  repeat split; nia.
Qed.

Lemma witnessed_quotient : Z.quot x y = q.
Proof. unfold q. apply Z.quot_div_nonneg; [apply Hx | exact Hy]. Qed.

Lemma remainder_value : Field.sub x (Field.mul q y) = x mod y.
Proof.
  destruct quotient_bounds as (Hq & Hqy & Hr). destruct Hx as [Hx0 Hx1].
  pose proof (Z.mod_pos_bound x y Hy).
  rewrite Field_mul_small by lia.
  rewrite Field_sub_small by lia. exact Hr.
Qed.

Lemma reconstruction : Field.add (Field.mul q y) (x mod y) = x.
Proof.
  destruct quotient_bounds as (Hq & Hqy & Hr). destruct Hx as [Hx0 Hx1].
  rewrite Field_mul_small by lia.
  rewrite Field_add_small by lia. lia.
Qed.

Lemma fieldIntegerDiv_ok : fieldIntegerDiv x y = Ok (x / y).
Proof.
  unfold fieldIntegerDiv.
  rewrite witnessed_quotient. fold q.
  rewrite remainder_value, reconstruction.
  pose proof (Z.mod_pos_bound x y Hy) as Hr.
  unfold Field.equals, Field.greaterThanOrEqual, Field.lessThan.
  rewrite (assert_true (negb (y =? 0))), (assert_true (0 <=? x mod y)),
    (assert_true (x mod y <? y)), (assert_true (x =? x)); try reflexivity.
  - apply Z.eqb_refl.
  - apply Z.ltb_lt; lia.
  - apply Z.leb_le; lia.
  - apply negb_true_iff, Z.eqb_neq; lia.
Qed.

End Division.

Lemma fieldIntegerDiv_zero (x : Z) : fieldIntegerDiv x 0 = Err DivisionByZero.
Proof. reflexivity. Qed.

(** The only way [fieldIntegerDiv] reports a division by zero is a zero
    denominator. *)
Lemma fieldIntegerDiv_DivisionByZero (x y : Z) :
  fieldIntegerDiv x y = Err DivisionByZero -> y = 0.
Proof.
  unfold fieldIntegerDiv, Field.equals.
  destruct (y =? 0) eqn:E; [intros _; now apply Z.eqb_eq|].
  simpl.
  repeat match goal with
         | |- context [assert ?b ?e] => destruct b; simpl
         end; discriminate.
Qed.

(** ** The health factor computed by the contract *)

Lemma calculateUsdValue_ok (amount price : Z) :
  0 <= amount * price < Field.ORDER ->
  calculateUsdValue amount price = Ok (amount * price / UNIT_PRECISION).
Proof.
  intros H. unfold calculateUsdValue.
  rewrite Field_mul_small by exact H.
  apply fieldIntegerDiv_ok; [exact H | reflexivity].
Qed.

Lemma calculateMaxAllowedDebt_ok (v : Z) :
  0 <= v -> v * 100 < Field.ORDER ->
  calculateMaxAllowedDebt v = Ok (v * 100 / 150 * 100).
Proof.
  intros H0 H1. unfold calculateMaxAllowedDebt.
  unfold COLLATERAL_RATIO_PRECISION, COLLATERAL_RATIO.
  rewrite Field_mul_small by lia.
  rewrite fieldIntegerDiv_ok by (unfold Field.canonical; lia).
  simpl bind.
  assert (0 <= v * 100 / 150 <= v).
  { split; [apply Z.div_pos; lia|].
    apply Z.div_le_upper_bound; lia. }
  rewrite Field_mul_small by lia. reflexivity.
Qed.

Lemma safeDiv_ok (n d : Z) :
  Field.canonical n -> 0 <= d -> safeDiv n d = Ok (spec_safeDiv n d).
Proof.
  intros Hn Hd. unfold safeDiv, spec_safeDiv, Field.equals, Provable_if.
  destruct (d =? 0) eqn:E.
  - rewrite fieldIntegerDiv_ok by (try exact Hn; lia). reflexivity.
  - apply Z.eqb_neq in E.
    rewrite fieldIntegerDiv_ok by (try exact Hn; lia). reflexivity.
Qed.

Lemma uint64_product_bound (a b : Z) :
  UInt64.inRange a -> UInt64.inRange b -> 0 <= a * b < 2 ^ 128.
Proof.
  unfold UInt64.inRange. rewrite MAXINT_value. intros Ha Hb.
  change (2 ^ 128) with (18446744073709551616 * 18446744073709551616).
  nia.
Qed.

Lemma collateral_value_bound (c p : Z) :
  UInt64.inRange c -> UInt64.inRange p ->
  0 <= c * p / UNIT_PRECISION < 2 ^ 128.
Proof.
  intros Hc Hp. pose proof (uint64_product_bound c p Hc Hp) as H.
  split; [apply Z.div_pos; [lia | reflexivity]|].
  apply Z.div_lt_upper_bound; [reflexivity|].
  unfold UNIT_PRECISION. lia.
Qed.

Lemma spec_maxAllowedDebt_bound (c p : Z) :
  UInt64.inRange c -> UInt64.inRange p ->
  0 <= spec_maxAllowedDebt c p < Field.ORDER.
Proof.
  intros Hc Hp. pose proof (collateral_value_bound c p Hc Hp) as H.
  pose proof ORDER_large as HO. unfold spec_maxAllowedDebt.
  set (v := c * p / UNIT_PRECISION) in *.
  assert (0 <= v * 100 / 150 <= v).
  { split; [apply Z.div_pos; lia|]. apply Z.div_le_upper_bound; lia. }
  change (2 ^ 136) with (2 ^ 128 * 256) in HO. lia.
Qed.

Lemma calculateHealthFactor_ok (c d p : Z) :
  UInt64.inRange c -> UInt64.inRange d -> UInt64.inRange p ->
  calculateHealthFactor c d p = Ok (spec_healthFactor c d p).
Proof.
  intros Hc Hd Hp. unfold calculateHealthFactor, spec_healthFactor.
  pose proof (uint64_product_bound c p Hc Hp) as Hcp.
  pose proof (collateral_value_bound c p Hc Hp) as Hv.
  pose proof ORDER_large as HO.
  change (2 ^ 136) with (2 ^ 128 * 256) in HO.
  rewrite calculateUsdValue_ok by lia. simpl bind.
  rewrite calculateMaxAllowedDebt_ok by lia. simpl bind.
  apply safeDiv_ok.
  - apply (spec_maxAllowedDebt_bound c p Hc Hp).
  - apply Hd.
Qed.

Lemma spec_healthFactor_nonneg (c d p : Z) :
  UInt64.inRange c -> UInt64.inRange d -> UInt64.inRange p ->
  0 <= spec_healthFactor c d p.
Proof.
  intros Hc Hd Hp. unfold spec_healthFactor, spec_safeDiv.
  destruct (d =? 0) eqn:E; [rewrite MAXINT_value; lia|].
  apply Z.eqb_neq in E. destruct Hd as [Hd _].
  apply Z.div_pos; [apply (spec_maxAllowedDebt_bound c p Hc Hp) | lia].
Qed.

(** No input makes the health-factor computation report a division by
    zero: the two inner denominators are non-zero constants and
    [safeDiv] replaces a zero debt by one. *)
Lemma calculateHealthFactor_no_DivisionByZero (c d p : Z) :
  calculateHealthFactor c d p <> Err DivisionByZero.
Proof.
  unfold calculateHealthFactor, calculateUsdValue, calculateMaxAllowedDebt.
  intros H.
  destruct (fieldIntegerDiv (Field.mul c p) UNIT_PRECISION) as [v|e] eqn:E1.
  2:{ simpl in H. injection H as ->.
      apply fieldIntegerDiv_DivisionByZero in E1. discriminate. }
  simpl in H.
  destruct (fieldIntegerDiv (Field.mul v COLLATERAL_RATIO_PRECISION)
              COLLATERAL_RATIO) as [q|e] eqn:E2.
  2:{ simpl in H. injection H as ->.
      apply fieldIntegerDiv_DivisionByZero in E2. discriminate. }
  simpl in H. unfold safeDiv in H.
  destruct (fieldIntegerDiv (Field.mul q COLLATERAL_RATIO_PRECISION)
              (Provable_if (Field.equals d 0) 1 d)) as [h|e] eqn:E3.
  - discriminate.
  - simpl in H. injection H as ->.
    apply fieldIntegerDiv_DivisionByZero in E3.
    unfold Provable_if, Field.equals in E3.
    destruct (d =? 0) eqn:Ed; [discriminate|].
    apply Z.eqb_neq in Ed. contradiction.
Qed.

(** The values expected by the repository's health-factor test suite. *)
Example health_factor_tests :
  calculateHealthFactor 1000000000 2000000000 1000000000 = Ok 33 /\
  calculateHealthFactor 1000000000 1000000000 2000000000 = Ok 133 /\
  calculateHealthFactor 1000000000 1000000000 500000000 = Ok 33 /\
  calculateHealthFactor 1000000000 0 1000000000 = Ok UInt64.MAXINT /\
  calculateHealthFactor 1000000000000 100000000000 1000000000 = Ok 666 /\
  calculateHealthFactor 100000000 100000000 1000000000 = Ok 66 /\
  calculateHealthFactor 10000000000 10000000000 1000000000 = Ok 66.
Proof. repeat split; vm_compute; reflexivity. Qed.

(** ** Scaling collateral and debt *)

Section Scaling.

Variables c p k : Z.
Hypothesis Hcp : 0 <= c * p.
Hypothesis Hk : 0 < k.

Lemma collateral_value_scale_le :
  k * (c * p / UNIT_PRECISION) <= k * c * p / UNIT_PRECISION.
Proof.
  apply Z.div_le_lower_bound; [reflexivity|].
  pose proof (Z.mul_div_le (c * p) UNIT_PRECISION ltac:(reflexivity)).
  nia.
Qed.

Lemma spec_maxAllowedDebt_scale_le :
  k * spec_maxAllowedDebt c p <= spec_maxAllowedDebt (k * c) p.
Proof.
  unfold spec_maxAllowedDebt.
  pose proof collateral_value_scale_le as HV.
  set (v := c * p / UNIT_PRECISION) in *.
  set (vk := k * c * p / UNIT_PRECISION) in *.
  assert (k * (v * 100 / 150) <= vk * 100 / 150).
  { apply Z.div_le_lower_bound; [lia|].
    pose proof (Z.mul_div_le (v * 100) 150 ltac:(lia)). nia. }
  lia.
Qed.

Lemma spec_maxAllowedDebt_scale_exact :
  (c * p) mod UNIT_PRECISION = 0 ->
  (c * p / UNIT_PRECISION) mod 3 = 0 ->
  spec_maxAllowedDebt (k * c) p = k * spec_maxAllowedDebt c p.
Proof.
  intros HU H3. unfold spec_maxAllowedDebt.
  apply Z.div_exact in HU; [|discriminate].
  set (v := c * p / UNIT_PRECISION) in *.
  apply Z.div_exact in H3; [|discriminate].
  set (t := v / 3) in *.
  replace (k * c * p) with (k * v * UNIT_PRECISION)
    by (rewrite <- (Z.mul_assoc k c p), HU; ring).
  rewrite Z.div_mul by discriminate.
  replace (k * v * 100) with (2 * k * t * 150) by (rewrite H3; ring).
  rewrite Z.div_mul by discriminate.
  replace (v * 100) with (2 * t * 150) by (rewrite H3; ring).
  rewrite Z.div_mul by discriminate.
  ring.
Qed.

Lemma spec_healthFactor_scale_le (d : Z) :
  0 <= d -> spec_healthFactor c d p <= spec_healthFactor (k * c) (k * d) p.
Proof.
  intros Hd. unfold spec_healthFactor, spec_safeDiv.
  destruct (d =? 0) eqn:E.
  - apply Z.eqb_eq in E. subst d. rewrite Z.mul_0_r. simpl. lia.
  - apply Z.eqb_neq in E.
    assert (Hkd : (k * d =? 0) = false) by (apply Z.eqb_neq; nia).
    rewrite Hkd.
    rewrite <- (Z.div_mul_cancel_l (spec_maxAllowedDebt c p) d k) by lia.
    apply Z.div_le_mono; [nia | apply spec_maxAllowedDebt_scale_le].
Qed.

Lemma spec_healthFactor_scale_exact (d : Z) :
  (c * p) mod UNIT_PRECISION = 0 ->
  (c * p / UNIT_PRECISION) mod 3 = 0 ->
  spec_healthFactor (k * c) (k * d) p = spec_healthFactor c d p.
Proof.
  intros HU H3. unfold spec_healthFactor, spec_safeDiv.
  destruct (d =? 0) eqn:E.
  - apply Z.eqb_eq in E. subst d. rewrite Z.mul_0_r. reflexivity.
  - apply Z.eqb_neq in E.
    assert (Hkd : (k * d =? 0) = false) by (apply Z.eqb_neq; nia).
    rewrite Hkd, spec_maxAllowedDebt_scale_exact by assumption.
    apply Z.div_mul_cancel_l; lia.
Qed.

End Scaling.

(** ** The guards of the methods *)

Lemma assertGreaterThan_ok (x y : Z) (e : Error) :
  y < x -> UInt64.assertGreaterThan x y e = Ok tt.
Proof. intros H. apply assert_true, Z.ltb_lt, H. Qed.

Lemma assertGreaterThan_fail (x y : Z) (e : Error) :
  x <= y -> UInt64.assertGreaterThan x y e = Err e.
Proof. intros H. apply assert_false, Z.ltb_ge, H. Qed.

Lemma assertGreaterThanOrEqual_ok (x y : Z) (e : Error) :
  y <= x -> UInt64.assertGreaterThanOrEqual x y e = Ok tt.
Proof. intros H. apply assert_true, Z.leb_le, H. Qed.

Lemma assertGreaterThanOrEqual_fail (x y : Z) (e : Error) :
  x < y -> UInt64.assertGreaterThanOrEqual x y e = Err e.
Proof. intros H. apply assert_false, Z.leb_gt, H. Qed.

Lemma assertLessThanOrEqual_ok (x y : Z) (e : Error) :
  x <= y -> UInt64.assertLessThanOrEqual x y e = Ok tt.
Proof. intros H. apply assert_true, Z.leb_le, H. Qed.

Lemma assertLessThanOrEqual_fail (x y : Z) (e : Error) :
  y < x -> UInt64.assertLessThanOrEqual x y e = Err e.
Proof. intros H. apply assert_false, Z.leb_gt, H. Qed.

(** *** The guard on the health factor *)

Lemma MAXINT_below_ORDER : UInt64.MAXINT + 100 < Field.ORDER.
Proof. reflexivity. Qed.

(** On a field element the range-checked comparison with the minimum
    health factor passes exactly between 100 and 2^64 + 99. *)
Lemma wrapped_guard_ok (hf : Z) (e : Error) :
  MIN_HEALTH_FACTOR <= hf <= UInt64.MAXINT + 100 ->
  UInt64.assertGreaterThanOrEqual_wrapped hf MIN_HEALTH_FACTOR e = Ok tt.
Proof.
  unfold MIN_HEALTH_FACTOR. intros H.
  pose proof MAXINT_below_ORDER as HO. rewrite MAXINT_value in *.
  unfold UInt64.assertGreaterThanOrEqual_wrapped.
  rewrite Field_sub_small by lia.
  apply assert_true, inRangeb_iff. unfold UInt64.inRange. rewrite ?MAXINT_value. lia.
Qed.

Lemma wrapped_guard_fail (hf : Z) (e : Error) :
  Field.canonical hf ->
  hf < MIN_HEALTH_FACTOR \/ UInt64.MAXINT + 100 < hf ->
  UInt64.assertGreaterThanOrEqual_wrapped hf MIN_HEALTH_FACTOR e = Err e.
Proof.
  unfold MIN_HEALTH_FACTOR, Field.canonical. intros Hc H.
  pose proof MAXINT_below_ORDER as HO. rewrite MAXINT_value in *.
  unfold UInt64.assertGreaterThanOrEqual_wrapped.
  apply assert_false, inRangeb_false_iff. unfold UInt64.inRange.
  rewrite ?MAXINT_value.
  destruct H as [Hlow | Hhigh].
  - unfold Field.sub.
    replace (hf - 100) with (hf - 100 + Field.ORDER + (-1) * Field.ORDER)
      by ring.
    rewrite Z_mod_plus_full, Z.mod_small by lia. lia.
  - rewrite Field_sub_small by lia. lia.
Qed.

Lemma wrapped_guard_Ok_inv (hf : Z) (e : Error) (u : unit) :
  Field.canonical hf ->
  UInt64.assertGreaterThanOrEqual_wrapped hf MIN_HEALTH_FACTOR e = Ok u ->
  MIN_HEALTH_FACTOR <= hf <= UInt64.MAXINT + 100.
Proof.
  intros Hc H.
  destruct (Z_lt_le_dec hf MIN_HEALTH_FACTOR) as [Hlow|Hge].
  - rewrite wrapped_guard_fail in H by (try exact Hc; left; exact Hlow).
    discriminate.
  - destruct (Z_lt_le_dec (UInt64.MAXINT + 100) hf) as [Hhigh|Hle]; [|lia].
    rewrite wrapped_guard_fail in H by (try exact Hc; right; exact Hhigh).
    discriminate.
Qed.

(** On two range-checked operands the range-checked comparison is the
    comparison of the integers. *)
Lemma wrapped_guard_valid (x y : Z) (e : Error) :
  UInt64.inRange x -> UInt64.inRange y ->
  UInt64.assertGreaterThanOrEqual_wrapped x y e
  = UInt64.assertGreaterThanOrEqual x y e.
Proof.
  unfold UInt64.inRange. intros Hx Hy.
  assert (HO : 2 * 18446744073709551615 + 100 < Field.ORDER) by reflexivity.
  rewrite MAXINT_value in *.
  unfold UInt64.assertGreaterThanOrEqual_wrapped,
    UInt64.assertGreaterThanOrEqual.
  destruct (Z_le_gt_dec y x) as [Hle|Hgt].
  - rewrite Field_sub_small by lia.
    rewrite (assert_true (y <=? x)) by (apply Z.leb_le; exact Hle).
    apply assert_true, inRangeb_iff. unfold UInt64.inRange.
    rewrite ?MAXINT_value. lia.
  - rewrite (assert_false (y <=? x)) by (apply Z.leb_gt; lia).
    apply assert_false, inRangeb_false_iff. unfold UInt64.inRange, Field.sub.
    rewrite ?MAXINT_value.
    replace (x - y) with (x - y + Field.ORDER + (-1) * Field.ORDER) by ring.
    rewrite Z_mod_plus_full, Z.mod_small by lia. lia.
Qed.

(** The guard of [liquidate] compares the other way round; checked as
    a proof does, by the range of [100 - hf], it is the integer
    comparison for every health factor the contract can compute. *)
Lemma liquidate_guard_range_check (hf : Z) :
  0 <= hf < 2 ^ 136 ->
  UInt64.inRangeb (Field.sub MIN_HEALTH_FACTOR hf) = (hf <=? MIN_HEALTH_FACTOR).
Proof.
  unfold MIN_HEALTH_FACTOR. intros H.
  assert (Hgap : 2 ^ 136 + 18446744073709551615 + 100 < Field.ORDER)
    by reflexivity.
  assert (H136 : 0 < 2 ^ 136) by reflexivity.
  destruct (Z_le_gt_dec hf 100) as [Hle|Hgt].
  - rewrite Field_sub_small by lia.
    rewrite (proj2 (Z.leb_le hf 100) Hle).
    apply inRangeb_iff. unfold UInt64.inRange. rewrite ?MAXINT_value. lia.
  - rewrite (proj2 (Z.leb_gt hf 100)) by lia.
    apply inRangeb_false_iff. unfold UInt64.inRange, Field.sub.
    rewrite ?MAXINT_value in *.
    replace (100 - hf) with (100 - hf + Field.ORDER + (-1) * Field.ORDER)
      by ring.
    rewrite Z_mod_plus_full, Z.mod_small by lia. lia.
Qed.

(** Whatever its inputs, a health factor that is computed is a field
    element. *)
Lemma fieldIntegerDiv_Ok_bounds (x y q : Z) :
  Field.canonical x -> fieldIntegerDiv x y = Ok q -> 0 <= q <= x.
Proof.
  intros Hx H. unfold fieldIntegerDiv in H.
  apply bind_Ok_inv in H as (u1 & H1 & H).
  apply bind_Ok_inv in H as (u2 & H2 & H).
  apply bind_Ok_inv in H as (u3 & H3 & H).
  apply bind_Ok_inv in H as (u4 & H4 & H).
  injection H as <-.
  apply assert_Ok_inv, Z.ltb_lt in H3.
  assert (Hy : 0 < y).
  { unfold Field.sub in H3.
    pose proof (Z.mod_pos_bound (x - Field.mul (Z.quot x y) y) Field.ORDER
                  ORDER_pos). lia. }
  rewrite (witnessed_quotient x y Hx Hy).
  destruct Hx as [Hx0 Hx1].
  split; [apply Z.div_pos; lia|].
  apply Z.div_le_upper_bound; [exact Hy | nia].
Qed.

Lemma calculateHealthFactor_canonical (c d p hf : Z) :
  calculateHealthFactor c d p = Ok hf -> Field.canonical hf.
Proof.
  unfold calculateHealthFactor, calculateMaxAllowedDebt, safeDiv. intros H.
  apply bind_Ok_inv in H as (v & _ & H).
  apply bind_Ok_inv in H as (m & Hm & H).
  apply bind_Ok_inv in Hm as (w & _ & Hm). injection Hm as <-.
  apply bind_Ok_inv in H as (q & Hq & H). injection H as <-.
  pose proof (Field_mul_canonical w COLLATERAL_RATIO_PRECISION) as Hcan.
  apply (fieldIntegerDiv_Ok_bounds _ _ _ Hcan) in Hq.
  unfold Provable_if. destruct (Field.equals d 0).
  - unfold Field.canonical. pose proof MAXINT_below_ORDER.
    rewrite MAXINT_value in *. lia.
  - unfold Field.canonical in *. lia.
Qed.

Lemma secret_ok (h s : Z) (e : Error) :
  h = s -> assert (Field.equals h s) e = Ok tt.
Proof. intros ->. apply assert_true, Z.eqb_refl. Qed.

Lemma secret_wrong (h s : Z) (e : Error) :
  h <> s -> assert (Field.equals h s) e = Err e.
Proof. intros H. apply assert_false, Z.eqb_neq, H. Qed.

Lemma commit_Err (st : VaultState) (r : Outcome) (e : Error) :
  r = Err e -> commit st r = st.
Proof. intros ->. reflexivity. Qed.

Section Methods.

Variable Poseidon_hash : list Z -> Z.
Variable ctx : Context.
Variable st : VaultState.

(** *** depositCollateral *)

Lemma deposit_amount_zero (amount secret : Z) :
  amount <= 0 ->
  depositCollateral Poseidon_hash ctx st amount secret = Err AMOUNT_ZERO.
Proof.
  intros H. unfold depositCollateral.
  rewrite assertGreaterThan_fail by (unfold UInt64.zero; lia). reflexivity.
Qed.

Lemma deposit_invalid_secret (amount secret : Z) :
  0 < amount -> ~ opens Poseidon_hash st secret ->
  depositCollateral Poseidon_hash ctx st amount secret = Err INVALID_SECRET.
Proof.
  intros H Hs. unfold depositCollateral.
  rewrite assertGreaterThan_ok by (unfold UInt64.zero; lia). cbn [bind].
  rewrite secret_wrong by exact Hs. reflexivity.
Qed.

Lemma deposit_overflow (amount secret : Z) :
  0 < amount -> opens Poseidon_hash st secret ->
  ~ UInt64.inRange (collateralAmount st + amount) ->
  depositCollateral Poseidon_hash ctx st amount secret = Err UInt64Overflow.
Proof.
  intros H Hs Ho. unfold depositCollateral.
  rewrite assertGreaterThan_ok by (unfold UInt64.zero; lia). cbn [bind].
  rewrite secret_ok by exact Hs. cbn [bind].
  rewrite UInt64_add_overflow by exact Ho. reflexivity.
Qed.

Lemma deposit_success (amount secret : Z) :
  0 < amount -> opens Poseidon_hash st secret ->
  UInt64.inRange (collateralAmount st + amount) ->
  depositCollateral Poseidon_hash ctx st amount secret =
    Ok (set_collateralAmount (collateralAmount st + amount) st,
        [Send (sender ctx) (address ctx) amount;
         EmitEvent (DepositCollateralEvent (address ctx) amount
                      (collateralAmount st) (debtAmount st))]).
Proof.
  intros H Hs Ho. unfold depositCollateral.
  rewrite assertGreaterThan_ok by (unfold UInt64.zero; lia). cbn [bind].
  rewrite secret_ok by exact Hs. cbn [bind].
  rewrite UInt64_add_ok by exact Ho. reflexivity.
Qed.

(** *** mintZkUsd *)

Lemma mint_success (recipient : PublicKey) (amount secret : Z) :
  0 < amount -> opens Poseidon_hash st secret ->
  UInt64.inRange (debtAmount st + amount) ->
  forall hf,
  calculateHealthFactor (collateralAmount st) (debtAmount st + amount)
    (oraclePrice ctx) = Ok hf ->
  MIN_HEALTH_FACTOR <= hf <= UInt64.MAXINT + 100 ->
  mintZkUsd Poseidon_hash ctx st recipient amount secret =
    Ok (set_interactionFlag true
          (set_debtAmount (debtAmount st + amount) st),
        [TokenMint recipient amount;
         EmitEvent (MintZkUsdEvent (address ctx) amount
                      (collateralAmount st) (debtAmount st))]).
Proof.
  intros H Hs Ho hf Hhf Hge. unfold mintZkUsd.
  rewrite assertGreaterThan_ok by (unfold UInt64.zero; lia). cbn [bind].
  rewrite secret_ok by exact Hs. cbn [bind].
  rewrite UInt64_add_ok by exact Ho. cbn [bind].
  rewrite Hhf. cbn [bind].
  rewrite wrapped_guard_ok by exact Hge. reflexivity.
Qed.

Lemma mint_health_factor_too_low (recipient : PublicKey) (amount secret : Z) :
  0 < amount -> opens Poseidon_hash st secret ->
  UInt64.inRange (debtAmount st + amount) ->
  forall hf,
  calculateHealthFactor (collateralAmount st) (debtAmount st + amount)
    (oraclePrice ctx) = Ok hf ->
  hf < MIN_HEALTH_FACTOR ->
  mintZkUsd Poseidon_hash ctx st recipient amount secret =
    Err HEALTH_FACTOR_TOO_LOW.
Proof.
  intros H Hs Ho hf Hhf Hlt. unfold mintZkUsd.
  rewrite assertGreaterThan_ok by (unfold UInt64.zero; lia). cbn [bind].
  rewrite secret_ok by exact Hs. cbn [bind].
  rewrite UInt64_add_ok by exact Ho. cbn [bind].
  rewrite Hhf. cbn [bind].
  rewrite wrapped_guard_fail
    by (try (left; exact Hlt); exact (calculateHealthFactor_canonical _ _ _ _ Hhf)).
  reflexivity.
Qed.

(** A health factor above 2^64 + 99 does not pass the range-checked
    guard either. *)
Lemma mint_health_factor_out_of_range (recipient : PublicKey)
    (amount secret : Z) :
  0 < amount -> opens Poseidon_hash st secret ->
  UInt64.inRange (debtAmount st + amount) ->
  forall hf,
  calculateHealthFactor (collateralAmount st) (debtAmount st + amount)
    (oraclePrice ctx) = Ok hf ->
  UInt64.MAXINT + 100 < hf ->
  mintZkUsd Poseidon_hash ctx st recipient amount secret =
    Err HEALTH_FACTOR_TOO_LOW.
Proof.
  intros H Hs Ho hf Hhf Hhigh. unfold mintZkUsd.
  rewrite assertGreaterThan_ok by (unfold UInt64.zero; lia). cbn [bind].
  rewrite secret_ok by exact Hs. cbn [bind].
  rewrite UInt64_add_ok by exact Ho. cbn [bind].
  rewrite Hhf. cbn [bind].
  rewrite wrapped_guard_fail
    by (try (right; exact Hhigh);
        exact (calculateHealthFactor_canonical _ _ _ _ Hhf)).
  reflexivity.
Qed.

(** What a successful mint tells about its inputs and its result. *)
Lemma mint_Ok_inv (recipient : PublicKey) (amount secret : Z)
    (st' : VaultState) (effs : list Effect) :
  mintZkUsd Poseidon_hash ctx st recipient amount secret = Ok (st', effs) ->
  0 < amount /\ opens Poseidon_hash st secret /\
  UInt64.inRange (debtAmount st + amount) /\
  (exists hf,
      calculateHealthFactor (collateralAmount st) (debtAmount st + amount)
        (oraclePrice ctx) = Ok hf /\ MIN_HEALTH_FACTOR <= hf) /\
  st' = set_interactionFlag true
          (set_debtAmount (debtAmount st + amount) st) /\
  effs = [TokenMint recipient amount;
          EmitEvent (MintZkUsdEvent (address ctx) amount
                       (collateralAmount st) (debtAmount st))].
Proof.
  unfold mintZkUsd. intros H.
  apply bind_Ok_inv in H as (u1 & H1 & H).
  apply assert_Ok_inv, Z.ltb_lt in H1.
  apply bind_Ok_inv in H as (u2 & H2 & H).
  apply assert_Ok_inv, Z.eqb_eq in H2.
  apply bind_Ok_inv in H as (d' & H3 & H).
  apply UInt64_add_inv in H3 as [-> Hr].
  apply bind_Ok_inv in H as (hf & H4 & H).
  apply bind_Ok_inv in H as (u5 & H5 & H).
  apply (wrapped_guard_Ok_inv hf _ u5
           (calculateHealthFactor_canonical _ _ _ _ H4)) in H5 as [H5 _].
  apply bind_Ok_inv in H as (d'' & H6 & H).
  apply UInt64_add_inv in H6 as [-> _].
  injection H as <- <-.
  repeat split; try assumption; try apply Hr; eauto.
Qed.

(** The health factor a successful mint was checked with. *)
Lemma mint_Ok_guard (recipient : PublicKey) (amount secret : Z)
    (st' : VaultState) (effs : list Effect) :
  mintZkUsd Poseidon_hash ctx st recipient amount secret = Ok (st', effs) ->
  exists hf,
    calculateHealthFactor (collateralAmount st) (debtAmount st + amount)
      (oraclePrice ctx) = Ok hf /\
    MIN_HEALTH_FACTOR <= hf <= UInt64.MAXINT + 100.
Proof.
  unfold mintZkUsd. intros H.
  apply bind_Ok_inv in H as (u1 & _ & H).
  apply bind_Ok_inv in H as (u2 & _ & H).
  apply bind_Ok_inv in H as (d' & H3 & H).
  apply UInt64_add_inv in H3 as [-> _].
  apply bind_Ok_inv in H as (hf & H4 & H).
  apply bind_Ok_inv in H as (u5 & H5 & _).
  apply (wrapped_guard_Ok_inv hf _ u5
           (calculateHealthFactor_canonical _ _ _ _ H4)) in H5.
  exists hf. split; assumption.
Qed.

(** *** redeemCollateral *)

Lemma redeem_balance_zero (amount secret : Z) :
  balance ctx <= 0 ->
  redeemCollateral Poseidon_hash ctx st amount secret = Err BALANCE_ZERO.
Proof.
  intros H. unfold redeemCollateral.
  rewrite assertGreaterThan_fail by (unfold UInt64.zero; lia). reflexivity.
Qed.

Lemma redeem_invalid_secret (amount secret : Z) :
  0 < balance ctx -> ~ opens Poseidon_hash st secret ->
  redeemCollateral Poseidon_hash ctx st amount secret = Err INVALID_SECRET.
Proof.
  intros H Hs. unfold redeemCollateral.
  rewrite assertGreaterThan_ok by (unfold UInt64.zero; lia). cbn [bind].
  rewrite secret_wrong by exact Hs. reflexivity.
Qed.

Lemma redeem_insufficient_collateral (amount secret : Z) :
  0 < balance ctx -> opens Poseidon_hash st secret ->
  collateralAmount st < amount ->
  redeemCollateral Poseidon_hash ctx st amount secret =
    Err INSUFFICIENT_COLLATERAL.
Proof.
  intros H Hs Ha. unfold redeemCollateral.
  rewrite assertGreaterThan_ok by (unfold UInt64.zero; lia). cbn [bind].
  rewrite secret_ok by exact Hs. cbn [bind].
  rewrite assertLessThanOrEqual_fail by exact Ha. reflexivity.
Qed.

Lemma redeem_checks_passed (amount secret : Z) :
  0 < balance ctx -> opens Poseidon_hash st secret ->
  0 <= amount <= collateralAmount st ->
  UInt64.inRange (collateralAmount st) ->
  forall hf,
  calculateHealthFactor (collateralAmount st - amount) (debtAmount st)
    (oraclePrice ctx) = Ok hf ->
  redeemCollateral Poseidon_hash ctx st amount secret =
    (UInt64.assertGreaterThanOrEqual_wrapped hf MIN_HEALTH_FACTOR
       HEALTH_FACTOR_TOO_LOW ;;;
     redeemPayout ctx st amount (collateralAmount st - amount)).
Proof.
  intros H Hs Ha Hc hf Hhf. unfold redeemCollateral.
  rewrite assertGreaterThan_ok by (unfold UInt64.zero; lia). cbn [bind].
  rewrite secret_ok by exact Hs. cbn [bind].
  rewrite assertLessThanOrEqual_ok by lia. cbn [bind].
  rewrite UInt64_sub_ok by (unfold UInt64.inRange in *; lia). cbn [bind].
  rewrite Hhf. reflexivity.
Qed.

Lemma redeem_health_factor_too_low (amount secret : Z) :
  0 < balance ctx -> opens Poseidon_hash st secret ->
  0 <= amount <= collateralAmount st ->
  UInt64.inRange (collateralAmount st) ->
  forall hf,
  calculateHealthFactor (collateralAmount st - amount) (debtAmount st)
    (oraclePrice ctx) = Ok hf ->
  hf < MIN_HEALTH_FACTOR ->
  redeemCollateral Poseidon_hash ctx st amount secret =
    Err HEALTH_FACTOR_TOO_LOW.
Proof.
  intros H Hs Ha Hc hf Hhf Hlt.
  rewrite (redeem_checks_passed amount secret H Hs Ha Hc hf Hhf).
  rewrite wrapped_guard_fail
    by (try (left; exact Hlt); exact (calculateHealthFactor_canonical _ _ _ _ Hhf)).
  reflexivity.
Qed.

Lemma redeemPayout_ok (amount : Z) :
  UInt64.inRange (balance ctx) -> UInt64.inRange (protocolFee ctx) ->
  0 <= amount <= collateralAmount st ->
  payoutComputable ctx st ->
  redeemPayout ctx st amount (collateralAmount st - amount) =
    Ok (set_collateralAmount (collateralAmount st - amount) st,
        (if 0 <? yieldFee ctx st
         then [Send (address ctx) PROTOCOL_VAULT_ADDRESS (yieldFee ctx st)]
         else []) ++
        [Send (address ctx) (sender ctx)
           (amount + (balance ctx - collateralAmount st - yieldFee ctx st));
         EmitEvent (RedeemCollateralEvent (address ctx) amount
                      (collateralAmount st) (debtAmount st))]).
Proof.
  intros Hb Hf Ha (Hcb & Hmul & Hfee). unfold redeemPayout.
  unfold UInt64.inRange in *.
  assert (0 <= yieldFee ctx st).
  { unfold yieldFee. apply Z.div_pos; [nia | reflexivity]. }
  rewrite UInt64_sub_ok by (unfold UInt64.inRange; lia). cbn [bind].
  rewrite UInt64_mul_ok by (unfold UInt64.inRange; nia). cbn [bind].
  unfold UInt64.div. change (PROTOCOL_FEE_PRECISION =? 0) with false.
  cbn [bind]. fold (yieldFee ctx st).
  rewrite UInt64_sub_ok by (unfold UInt64.inRange; lia). cbn [bind].
  rewrite UInt64_add_ok by (unfold UInt64.inRange; lia). cbn [bind].
  reflexivity.
Qed.

Lemma redeemPayout_underflow (amount remaining : Z) :
  balance ctx < collateralAmount st ->
  redeemPayout ctx st amount remaining = Err UInt64Underflow.
Proof.
  intros H. unfold redeemPayout, UInt64.sub.
  replace (UInt64.inRangeb (balance ctx - collateralAmount st)) with false.
  - reflexivity.
  - symmetry. apply inRangeb_false_iff. unfold UInt64.inRange. lia.
Qed.

Lemma redeemPayout_overflow (amount remaining : Z) :
  0 <= collateralAmount st <= balance ctx -> balance ctx <= UInt64.MAXINT ->
  UInt64.MAXINT < (balance ctx - collateralAmount st) * protocolFee ctx ->
  redeemPayout ctx st amount remaining = Err UInt64Overflow.
Proof.
  intros H Hb Ho. unfold redeemPayout.
  rewrite UInt64_sub_ok by (unfold UInt64.inRange; lia). cbn [bind].
  unfold UInt64.mul.
  replace (UInt64.inRangeb
             ((balance ctx - collateralAmount st) * protocolFee ctx))
    with false.
  - reflexivity.
  - symmetry. apply inRangeb_false_iff. unfold UInt64.inRange. lia.
Qed.

Lemma UInt64_sub_underflow (x y : Z) :
  x < y -> UInt64.sub x y = Err UInt64Underflow.
Proof.
  intros H. unfold UInt64.sub.
  replace (UInt64.inRangeb (x - y)) with false; [reflexivity|].
  symmetry. apply inRangeb_false_iff. unfold UInt64.inRange. lia.
Qed.

(** Outside [payoutComputable] one of the checked operations of the
    yield split fails. *)
Lemma redeemPayout_rejects (amount remaining : Z) :
  UInt64.inRange (balance ctx) -> 0 <= collateralAmount st ->
  ~ payoutComputable ctx st ->
  isOk (redeemPayout ctx st amount remaining) = false.
Proof.
  intros Hb Hc Hn. unfold UInt64.inRange in Hb.
  destruct (Z_lt_le_dec (balance ctx) (collateralAmount st)) as [Hlt|Hle].
  { rewrite redeemPayout_underflow by exact Hlt. reflexivity. }
  destruct (Z_lt_le_dec UInt64.MAXINT
              ((balance ctx - collateralAmount st) * protocolFee ctx))
    as [Hov|Hfit].
  { rewrite redeemPayout_overflow by lia. reflexivity. }
  assert (Hfee : balance ctx - collateralAmount st < yieldFee ctx st).
  { destruct (Z_lt_le_dec (balance ctx - collateralAmount st)
                (yieldFee ctx st)) as [H|H]; [exact H|].
    exfalso. apply Hn. repeat split; assumption. }
  assert (Hprod : 0 <= (balance ctx - collateralAmount st) * protocolFee ctx).
  { destruct (Z_lt_le_dec
                ((balance ctx - collateralAmount st) * protocolFee ctx) 0)
      as [Hneg|Hnn]; [|exact Hnn].
    exfalso. unfold yieldFee in Hfee.
    assert ((balance ctx - collateralAmount st) * protocolFee ctx
              / PROTOCOL_FEE_PRECISION < 0)
      by (apply Z.div_lt_upper_bound; [reflexivity | lia]).
    lia. }
  unfold redeemPayout.
  rewrite UInt64_sub_ok by (unfold UInt64.inRange; lia). cbn [bind].
  rewrite UInt64_mul_ok by (unfold UInt64.inRange; lia). cbn [bind].
  unfold UInt64.div. change (PROTOCOL_FEE_PRECISION =? 0) with false.
  cbn [bind]. fold (yieldFee ctx st).
  rewrite UInt64_sub_underflow by exact Hfee. reflexivity.
Qed.

(** *** burnZkUsd *)

Lemma burn_success (amount secret : Z) :
  0 < amount -> opens Poseidon_hash st secret -> amount <= debtAmount st ->
  UInt64.inRange (debtAmount st) ->
  burnZkUsd Poseidon_hash ctx st amount secret =
    Ok (set_debtAmount (debtAmount st - amount) st,
        [TokenBurn (sender ctx) amount;
         EmitEvent (BurnZkUsdEvent (address ctx) amount
                      (collateralAmount st) (debtAmount st))]).
Proof.
  intros H Hs Ha Hd. unfold burnZkUsd.
  rewrite assertGreaterThan_ok by (unfold UInt64.zero; lia). cbn [bind].
  rewrite secret_ok by exact Hs. cbn [bind].
  rewrite assertGreaterThanOrEqual_ok by exact Ha. cbn [bind].
  rewrite UInt64_sub_ok by (unfold UInt64.inRange in *; lia). reflexivity.
Qed.

(** *** liquidate *)

Lemma liquidate_success (hf : Z) :
  calculateHealthFactor (collateralAmount st) (debtAmount st)
    (oraclePrice ctx) = Ok hf ->
  hf <= MIN_HEALTH_FACTOR ->
  liquidate ctx st =
    Ok (mkVault 0 0 (ownershipHash st) (interactionFlag st),
        [Send (address ctx) (sender ctx) (collateralAmount st);
         TokenBurn (sender ctx) (debtAmount st);
         EmitEvent (LiquidateEvent (address ctx) (sender ctx)
                      (collateralAmount st) (debtAmount st)
                      (oraclePrice ctx))]).
Proof.
  intros Hhf Hle. unfold liquidate. rewrite Hhf. cbn [bind].
  rewrite assertLessThanOrEqual_ok by exact Hle. reflexivity.
Qed.

Lemma liquidate_health_factor_too_high (hf : Z) :
  calculateHealthFactor (collateralAmount st) (debtAmount st)
    (oraclePrice ctx) = Ok hf ->
  MIN_HEALTH_FACTOR < hf ->
  liquidate ctx st = Err HEALTH_FACTOR_TOO_HIGH.
Proof.
  intros Hhf Hgt. unfold liquidate. rewrite Hhf. cbn [bind].
  rewrite assertLessThanOrEqual_fail by exact Hgt. reflexivity.
Qed.

End Methods.

(** * The claims *)

Ltac in_range := unfold UInt64.inRange; rewrite ?MAXINT_value; simpl; lia.

(** ** Health-factor arithmetic *)

(** C1. For all [UInt64] collateral, debt and price,
    [calculateHealthFactor] equals [safeDiv] applied to
    floor(floor(collateral * price / 1e9) * 100 / 150) * 100 and the
    debt, that is the specification's health factor; in particular it is
    66 at (1e9, 1e9, 1e9), 133 at (2e9, 1e9, 1e9) and 100 at
    (1.5e9, 1e9, 1e9). *)
Theorem calculateHealthFactor_formula (collateral debt price : Z) :
  UInt64.inRange collateral -> UInt64.inRange debt -> UInt64.inRange price ->
  calculateHealthFactor collateral debt price =
    safeDiv (collateral * price / 1000000000 * 100 / 150 * 100) debt
  /\ calculateHealthFactor collateral debt price =
       Ok (spec_healthFactor collateral debt price)
  /\ calculateHealthFactor 1000000000 1000000000 1000000000 = Ok 66
  /\ calculateHealthFactor 2000000000 1000000000 1000000000 = Ok 133
  /\ calculateHealthFactor 1500000000 1000000000 1000000000 = Ok 100.
Proof.
  intros Hc Hd Hp.
  pose proof (calculateHealthFactor_ok collateral debt price Hc Hd Hp) as H.
  split; [|split; [exact H|]].
  - rewrite H. symmetry.
    apply (safeDiv_ok (spec_maxAllowedDebt collateral price) debt).
    + apply spec_maxAllowedDebt_bound; assumption.
    + apply Hd.
  - repeat split; vm_compute; reflexivity.
Qed.

Lemma calculateHealthFactor_formula_witness :
  UInt64.inRange 3000000000 /\ UInt64.inRange 1000000000 /\
  UInt64.inRange 500000000 /\
  calculateHealthFactor 3000000000 1000000000 500000000 =
    Ok (spec_healthFactor 3000000000 1000000000 500000000).
Proof.
  assert (Hc : UInt64.inRange 3000000000) by in_range.
  assert (Hd : UInt64.inRange 1000000000) by in_range.
  assert (Hp : UInt64.inRange 500000000) by in_range.
  repeat (split; [assumption|]).
  apply (calculateHealthFactor_formula 3000000000 1000000000 500000000 Hc Hd Hp).
Defined.

(** C4. With a zero debt the health factor is the maximum [UInt64]
    value whatever the collateral and the price; the computation
    returns a value for all [UInt64] inputs and reports a division by
    zero for no input at all, since [safeDiv] divides by one when the
    debt is zero. *)
Theorem calculateHealthFactor_total (collateral debt price : Z) :
  UInt64.inRange collateral -> UInt64.inRange debt -> UInt64.inRange price ->
  calculateHealthFactor collateral 0 price = Ok UInt64.MAXINT
  /\ (exists hf, calculateHealthFactor collateral debt price = Ok hf)
  /\ (forall c d p, calculateHealthFactor c d p <> Err DivisionByZero)
  /\ (forall n, safeDiv n 0 = (fieldIntegerDiv n 1 ;;; Ok UInt64.MAXINT)).
Proof.
  intros Hc Hd Hp. repeat split.
  - rewrite calculateHealthFactor_ok; [reflexivity | exact Hc | in_range | exact Hp].
  - eexists. apply calculateHealthFactor_ok; assumption.
  - apply calculateHealthFactor_no_DivisionByZero.
Qed.

Lemma calculateHealthFactor_total_witness :
  UInt64.inRange 1000000000 /\ UInt64.inRange 7 /\ UInt64.inRange 250000000 /\
  calculateHealthFactor 1000000000 0 250000000 = Ok UInt64.MAXINT.
Proof.
  assert (Hc : UInt64.inRange 1000000000) by in_range.
  assert (Hd : UInt64.inRange 7) by in_range.
  assert (Hp : UInt64.inRange 250000000) by in_range.
  repeat (split; [assumption|]).
  apply (calculateHealthFactor_total 1000000000 7 250000000 Hc Hd Hp).
Defined.

(** C7. For field elements [x] and [y] with [y] non-zero,
    [fieldIntegerDiv] returns floor(x / y), and the constraints it
    asserts hold for that quotient: the remainder r = x - q * y lies in
    [0, y) and x = q * y + r; for [y = 0] it fails with the
    division-by-zero error. *)
Theorem fieldIntegerDiv_verified (x y : Z) :
  Field.canonical x -> Field.canonical y ->
  (y <> 0 ->
   fieldIntegerDiv x y = Ok (x / y) /\
   let q := x / y in
   let r := Field.sub x (Field.mul q y) in
   0 <= r < y /\ x = Field.add (Field.mul q y) r /\ x = q * y + r)
  /\ (y = 0 -> fieldIntegerDiv x y = Err DivisionByZero).
Proof.
  intros Hx Hy. split.
  - intros Hne. assert (Hpos : 0 < y) by (destruct Hy; lia).
    split; [apply fieldIntegerDiv_ok; assumption|].
    cbv zeta. rewrite (remainder_value x y Hx Hpos).
    pose proof (Z.mod_pos_bound x y Hpos).
    pose proof (Z.div_mod x y ltac:(lia)).
    repeat split; try lia.
    symmetry. apply reconstruction; assumption.
  - intros ->. apply fieldIntegerDiv_zero.
Qed.

Lemma fieldIntegerDiv_verified_witness :
  Field.canonical 17 /\ Field.canonical 5 /\ 5 <> 0 /\
  fieldIntegerDiv 17 5 = Ok (17 / 5).
Proof.
  assert (Hx : Field.canonical 17) by (unfold Field.canonical, Field.ORDER; lia).
  assert (Hy : Field.canonical 5) by (unfold Field.canonical, Field.ORDER; lia).
  assert (Hne : 5 <> 0) by lia.
  repeat (split; [assumption|]).
  apply (proj1 (fieldIntegerDiv_verified 17 5 Hx Hy) Hne).
Defined.

(** C5, as stated, fails: one base unit of collateral against one base
    unit of debt at price 1e9 has health factor 0, while the same
    position scaled by k = 1e9 has health factor 66. *)
Lemma scale_invariance_counterexample :
  UInt64.inRange 1 /\ UInt64.inRange 1000000000 /\ 0 < 1000000000 /\
  UInt64.inRange (1000000000 * 1) /\
  calculateHealthFactor 1 1 1000000000 = Ok 0 /\
  calculateHealthFactor (1000000000 * 1) (1000000000 * 1) 1000000000 = Ok 66 /\
  calculateHealthFactor 1 1 1000000000 <>
    calculateHealthFactor (1000000000 * 1) (1000000000 * 1) 1000000000.
Proof.
  split; [in_range|]. split; [in_range|]. split; [lia|]. split; [in_range|].
  split; [vm_compute; reflexivity|]. split; [vm_compute; reflexivity|].
  vm_compute. discriminate.
Qed.

(** C5, amended. For [UInt64] collateral c, debt d, price p and a
    positive k with k*c and k*d representable, the health factor of the
    scaled position is never below that of the original one; the two
    are equal when the debt is zero, and when both inner divisions are
    exact (c*p is a multiple of 1e9 and c*p/1e9 a multiple of 3). *)
Theorem calculateHealthFactor_scaling (c d p k : Z) :
  UInt64.inRange c -> UInt64.inRange d -> UInt64.inRange p ->
  0 < k -> UInt64.inRange (k * c) -> UInt64.inRange (k * d) ->
  exists h hk,
    calculateHealthFactor c d p = Ok h /\
    calculateHealthFactor (k * c) (k * d) p = Ok hk /\
    h <= hk /\
    (d = 0 -> h = hk) /\
    ((c * p) mod UNIT_PRECISION = 0 ->
     (c * p / UNIT_PRECISION) mod 3 = 0 -> h = hk).
Proof.
  intros Hc Hd Hp Hk Hkc Hkd.
  exists (spec_healthFactor c d p), (spec_healthFactor (k * c) (k * d) p).
  pose proof (uint64_product_bound c p Hc Hp) as [Hcp _].
  split; [apply calculateHealthFactor_ok; assumption|].
  split; [apply calculateHealthFactor_ok; assumption|].
  split; [apply spec_healthFactor_scale_le; [assumption .. | apply Hd]|].
  split.
  - intros ->. unfold spec_healthFactor, spec_safeDiv.
    rewrite Z.mul_0_r. reflexivity.
  - intros HU H3. symmetry.
    apply spec_healthFactor_scale_exact; assumption.
Qed.

Lemma calculateHealthFactor_scaling_witness :
  exists h hk,
    calculateHealthFactor 7 2 500000000 = Ok h /\
    calculateHealthFactor (1000 * 7) (1000 * 2) 500000000 = Ok hk /\
    h <= hk.
Proof.
  assert (Hc : UInt64.inRange 7) by in_range.
  assert (Hd : UInt64.inRange 2) by in_range.
  assert (Hp : UInt64.inRange 500000000) by in_range.
  assert (Hk : 0 < 1000) by lia.
  assert (Hkc : UInt64.inRange (1000 * 7)) by in_range.
  assert (Hkd : UInt64.inRange (1000 * 2)) by in_range.
  destruct (calculateHealthFactor_scaling 7 2 500000000 1000 Hc Hd Hp Hk Hkc Hkd)
    as (h & hk & H1 & H2 & H3 & _).
  exists h, hk. repeat split; assumption.
Defined.

(** ** Vault operations *)





Section VaultClaims.

Variable Poseidon_hash : list Z -> Z.

(** C8, amended. [depositCollateral] with a positive amount, the
    right secret and a sum [collateralAmount + amount] that fits in a
    [UInt64] increases [collateralAmount] by exactly [amount] and
    leaves the debt, the ownership commitment and the flag as they
    were.  It rejects with [AMOUNT_ZERO] for a zero amount, with
    [INVALID_SECRET] for a positive amount and a wrong secret, and
    with the overflow error of the checked addition when the sum does
    not fit; every rejection leaves the vault state unchanged. *)
Theorem depositCollateral_checked (ctx : Context) (st : VaultState)
    (amount secret : Z) :
  wfState st -> UInt64.inRange amount ->
  let r := depositCollateral Poseidon_hash ctx st amount secret in
  (0 < amount -> opens Poseidon_hash st secret ->
   collateralAmount st + amount <= UInt64.MAXINT ->
   isOk r = true /\
   collateralAmount (commit st r) = collateralAmount st + amount /\
   debtAmount (commit st r) = debtAmount st /\
   ownershipHash (commit st r) = ownershipHash st /\
   interactionFlag (commit st r) = interactionFlag st)
  /\ (amount = 0 -> r = Err AMOUNT_ZERO /\ commit st r = st)
  /\ (0 < amount -> ~ opens Poseidon_hash st secret ->
      r = Err INVALID_SECRET /\ commit st r = st)
  /\ (0 < amount -> opens Poseidon_hash st secret ->
      UInt64.MAXINT < collateralAmount st + amount ->
      r = Err UInt64Overflow /\ commit st r = st).
Proof.
  intros [Hc Hd] Ha r. unfold UInt64.inRange in *. subst r.
  split; [|split; [|split]].
  - intros Hpos Hs Hsum.
    rewrite deposit_success by (try assumption; unfold UInt64.inRange; lia).
    repeat split.
  - intros ->. rewrite deposit_amount_zero by lia. split; reflexivity.
  - intros Hpos Hs. rewrite deposit_invalid_secret by assumption.
    split; reflexivity.
  - intros Hpos Hs Ho.
    rewrite deposit_overflow
      by (try assumption; unfold UInt64.inRange; lia).
    split; reflexivity.
Qed.

(** C2. A successful [mintZkUsd] had a positive amount, the right
    secret and a health factor of at least 100 for the debt
    [debtAmount + amount]; it stores that sum as the new debt and
    raises the interaction flag.  When the health factor for the
    hypothetical debt is below 100 the mint is rejected and the debt
    unchanged; the rejection carries [HEALTH_FACTOR_TOO_LOW] once the
    amount and secret checks, which come first, have passed.  Past those
    checks the mint succeeds for a health factor between 100 and
    2^64 + 99; above that the guard, a 64-bit range check of the health
    factor minus 100, rejects it with [HEALTH_FACTOR_TOO_LOW] as well. *)
Theorem mintZkUsd_guarded (ctx : Context) (st : VaultState)
    (recipient : PublicKey) (amount secret : Z) :
  wfState st -> UInt64.inRange amount ->
  let r := mintZkUsd Poseidon_hash ctx st recipient amount secret in
  let hypothetical :=
    calculateHealthFactor (collateralAmount st) (debtAmount st + amount)
      (oraclePrice ctx) in
  (forall st' effs, r = Ok (st', effs) ->
     0 < amount /\ opens Poseidon_hash st secret /\
     (exists hf, hypothetical = Ok hf /\ 100 <= hf) /\
     debtAmount st' = debtAmount st + amount /\
     interactionFlag st' = true)
  /\ (forall hf, hypothetical = Ok hf -> hf < 100 ->
        isOk r = false /\ debtAmount (commit st r) = debtAmount st)
  /\ (forall hf, 0 < amount -> opens Poseidon_hash st secret ->
        debtAmount st + amount <= UInt64.MAXINT ->
        hypothetical = Ok hf -> hf < 100 ->
        r = Err HEALTH_FACTOR_TOO_LOW)
  /\ (forall hf, 0 < amount -> opens Poseidon_hash st secret ->
        debtAmount st + amount <= UInt64.MAXINT ->
        hypothetical = Ok hf -> 100 <= hf <= UInt64.MAXINT + 100 ->
        isOk r = true)
  /\ (forall hf, 0 < amount -> opens Poseidon_hash st secret ->
        debtAmount st + amount <= UInt64.MAXINT ->
        hypothetical = Ok hf -> UInt64.MAXINT + 100 < hf ->
        r = Err HEALTH_FACTOR_TOO_LOW).
Proof.
  intros [Hc Hd] Ha r hypothetical. unfold UInt64.inRange in *.
  subst r hypothetical.
  split; [|split; [|split; [|split]]].
  - intros st' effs H.
    apply mint_Ok_inv in H as (Hpos & Hs & Hr & Hhf & -> & _).
    repeat split; assumption.
  - intros hf Hhf Hlt.
    destruct (mintZkUsd Poseidon_hash ctx st recipient amount secret)
      as [[st' effs]|e] eqn:E; [|split; reflexivity].
    apply mint_Ok_inv in E as (_ & _ & _ & (hf' & Hhf' & Hge) & _).
    rewrite Hhf in Hhf'. injection Hhf' as <-.
    unfold MIN_HEALTH_FACTOR in Hge. lia.
  - intros hf Hpos Hs Hsum Hhf Hlt.
    apply (mint_health_factor_too_low Poseidon_hash ctx st recipient
             amount secret Hpos Hs) with (hf := hf);
      [unfold UInt64.inRange; lia | exact Hhf | exact Hlt].
  - intros hf Hpos Hs Hsum Hhf Hge.
    rewrite (mint_success Poseidon_hash ctx st recipient amount secret
               Hpos Hs) with (hf := hf);
      [reflexivity | unfold UInt64.inRange; lia | exact Hhf | exact Hge].
  - intros hf Hpos Hs Hsum Hhf Hhigh.
    apply (mint_health_factor_out_of_range Poseidon_hash ctx st recipient
             amount secret Hpos Hs) with (hf := hf);
      [unfold UInt64.inRange; lia | exact Hhf | exact Hhigh].
Qed.

(** C3. [liquidate] takes no secret.  It succeeds exactly when the
    health factor of the current collateral, debt and oracle price is
    at most 100; it then zeroes both amounts and sends the caller
    exactly the prior collateral.  When the health factor exceeds 100
    it rejects with [HEALTH_FACTOR_TOO_HIGH] and the vault state is
    unchanged. *)
Theorem liquidate_guarded (ctx : Context) (st : VaultState) :
  wfState st -> wfContext ctx ->
  exists hf,
    calculateHealthFactor (collateralAmount st) (debtAmount st)
      (oraclePrice ctx) = Ok hf /\
    (isOk (liquidate ctx st) = true <-> hf <= 100) /\
    (hf <= 100 ->
     liquidate ctx st =
       Ok (mkVault 0 0 (ownershipHash st) (interactionFlag st),
           [Send (address ctx) (sender ctx) (collateralAmount st);
            TokenBurn (sender ctx) (debtAmount st);
            EmitEvent (LiquidateEvent (address ctx) (sender ctx)
                         (collateralAmount st) (debtAmount st)
                         (oraclePrice ctx))])) /\
    (100 < hf ->
     liquidate ctx st = Err HEALTH_FACTOR_TOO_HIGH /\
     commit st (liquidate ctx st) = st).
Proof.
  intros [Hc Hd] (Hb & Hp & Hf).
  exists (spec_healthFactor (collateralAmount st) (debtAmount st)
            (oraclePrice ctx)).
  pose proof (calculateHealthFactor_ok _ _ _ Hc Hd Hp) as Hhf.
  split; [exact Hhf|].
  assert (Hok : spec_healthFactor (collateralAmount st) (debtAmount st)
                  (oraclePrice ctx) <= 100 ->
                liquidate ctx st =
                  Ok (mkVault 0 0 (ownershipHash st) (interactionFlag st),
                      [Send (address ctx) (sender ctx) (collateralAmount st);
                       TokenBurn (sender ctx) (debtAmount st);
                       EmitEvent (LiquidateEvent (address ctx) (sender ctx)
                                    (collateralAmount st) (debtAmount st)
                                    (oraclePrice ctx))])).
  { intros Hle. apply (liquidate_success ctx st _ Hhf Hle). }
  assert (Hhigh : 100 < spec_healthFactor (collateralAmount st)
                          (debtAmount st) (oraclePrice ctx) ->
                  liquidate ctx st = Err HEALTH_FACTOR_TOO_HIGH).
  { intros Hgt. apply (liquidate_health_factor_too_high ctx st _ Hhf Hgt). }
  split; [|split; [exact Hok|]].
  - split.
    + intros H.
      destruct (Z_le_gt_dec (spec_healthFactor (collateralAmount st)
                    (debtAmount st) (oraclePrice ctx)) 100) as [Hle|Hgt];
        [exact Hle|].
      rewrite Hhigh in H by lia. discriminate.
    + intros Hle. rewrite Hok by exact Hle. reflexivity.
  - intros Hgt. rewrite Hhigh by exact Hgt. split; reflexivity.
Qed.

(** C6, amended. [redeemCollateral] rejects with [BALANCE_ZERO] when
    the vault's balance is zero; otherwise with [INVALID_SECRET] for a
    wrong secret; otherwise with [INSUFFICIENT_COLLATERAL] when the
    amount exceeds the collateral; otherwise with
    [HEALTH_FACTOR_TOO_LOW] when the health factor of
    [collateralAmount - amount], the debt and the oracle price is
    below 100.  When all four checks pass with a health factor of at
    most 2^64 + 99 (the guard range-checks the health factor minus 100
    into 64 bits) and the yield split is computable in [UInt64] (the
    balance covers the collateral, the yield times the fee fits in 64
    bits and the fee share does not exceed the yield) it succeeds, sets
    the collateral to [collateralAmount - amount] and leaves the debt
    unchanged; when the yield split is not computable it is rejected.
    Every rejection leaves the vault state unchanged. *)
Theorem redeemCollateral_checked (ctx : Context) (st : VaultState)
    (amount secret : Z) :
  wfState st -> wfContext ctx -> UInt64.inRange amount ->
  let r := redeemCollateral Poseidon_hash ctx st amount secret in
  (balance ctx = 0 -> r = Err BALANCE_ZERO)
  /\ (0 < balance ctx -> ~ opens Poseidon_hash st secret ->
      r = Err INVALID_SECRET)
  /\ (0 < balance ctx -> opens Poseidon_hash st secret ->
      collateralAmount st < amount -> r = Err INSUFFICIENT_COLLATERAL)
  /\ (0 < balance ctx -> opens Poseidon_hash st secret ->
      amount <= collateralAmount st ->
      exists hf,
        calculateHealthFactor (collateralAmount st - amount)
          (debtAmount st) (oraclePrice ctx) = Ok hf /\
        (hf < 100 -> r = Err HEALTH_FACTOR_TOO_LOW) /\
        (100 <= hf <= UInt64.MAXINT + 100 -> payoutComputable ctx st ->
         isOk r = true /\
         collateralAmount (commit st r) = collateralAmount st - amount /\
         debtAmount (commit st r) = debtAmount st /\
         ownershipHash (commit st r) = ownershipHash st /\
         interactionFlag (commit st r) = interactionFlag st) /\
        (100 <= hf -> ~ payoutComputable ctx st -> isOk r = false))
  /\ (forall e, r = Err e -> commit st r = st).
Proof.
  intros [Hc Hd] (Hb & Hp & Hf) Ha r. subst r.
  split; [|split; [|split; [|split]]].
  - intros H0. apply redeem_balance_zero. lia.
  - intros Hpos Hs. apply redeem_invalid_secret; assumption.
  - intros Hpos Hs Hgt. apply redeem_insufficient_collateral; assumption.
  - intros Hpos Hs Hle.
    assert (Hrange : 0 <= amount <= collateralAmount st)
      by (unfold UInt64.inRange in Ha; lia).
    assert (Hrem : UInt64.inRange (collateralAmount st - amount))
      by (unfold UInt64.inRange in *; lia).
    pose proof (calculateHealthFactor_ok _ _ _ Hrem Hd Hp) as Hhf.
    eexists. split; [exact Hhf|].
    rewrite (redeem_checks_passed Poseidon_hash ctx st amount secret
               Hpos Hs Hrange Hc _ Hhf).
    split; [|split].
    + intros Hlt.
      rewrite wrapped_guard_fail
        by (try (left; exact Hlt);
            exact (calculateHealthFactor_canonical _ _ _ _ Hhf)).
      reflexivity.
    + intros Hge Hpay.
      rewrite wrapped_guard_ok by exact Hge. cbn [bind].
      rewrite redeemPayout_ok by assumption.
      repeat split.
    + intros Hge Hpay.
      destruct (Z_lt_le_dec (UInt64.MAXINT + 100)
                  (spec_healthFactor (collateralAmount st - amount)
                     (debtAmount st) (oraclePrice ctx))) as [Hhigh|Hfit].
      * rewrite wrapped_guard_fail
          by (try (right; exact Hhigh);
              exact (calculateHealthFactor_canonical _ _ _ _ Hhf)).
        reflexivity.
      * rewrite wrapped_guard_ok by (split; [exact Hge | exact Hfit]).
        cbn [bind].
        apply redeemPayout_rejects; [exact Hb | apply Hc | exact Hpay].
  - intros e He. apply (commit_Err st _ e He).
Qed.

(** C9. At a health factor of exactly 100 the guard of [liquidate]
    (at most 100) and the guard of [mintZkUsd] and [redeemCollateral]
    (at least 100) both hold.  With collateral 1.5e9, debt 1e9 and
    price 1e9 the health factor is 100: that vault can be liquidated,
    it passes the redeem check, and it is what a permitted mint of one
    unit from debt 1e9 - 1, or a permitted redemption of one unit from
    collateral 1.5e9 + 1, leaves behind; those two earlier vaults are
    themselves liquidatable at the moment the mint or the redemption
    is allowed. *)
Theorem guards_overlap_at_100 (secret fee : Z)
    (vault caller recipient : PublicKey) :
  let owner := Poseidon_hash [secret] in
  let ctx b := mkContext vault caller b 1000000000 fee in
  let st := mkVault 1500000000 1000000000 owner false in
  let before_mint := mkVault 1500000000 999999999 owner false in
  let before_redeem := mkVault 1500000001 1000000000 owner false in
  calculateHealthFactor 1500000000 1000000000 1000000000 = Ok 100
  /\ UInt64.assertLessThanOrEqual 100 MIN_HEALTH_FACTOR
       HEALTH_FACTOR_TOO_HIGH = Ok tt
  /\ UInt64.assertGreaterThanOrEqual 100 MIN_HEALTH_FACTOR
       HEALTH_FACTOR_TOO_LOW = Ok tt
  /\ UInt64.assertGreaterThanOrEqual_wrapped 100 MIN_HEALTH_FACTOR
       HEALTH_FACTOR_TOO_LOW = Ok tt
  /\ isOk (liquidate (ctx 1500000000) st) = true
  /\ isOk (redeemCollateral Poseidon_hash (ctx 1500000000) st 0 secret) = true
  /\ commit before_mint
       (mintZkUsd Poseidon_hash (ctx 1500000000) before_mint recipient 1 secret)
     = set_interactionFlag true st
  /\ isOk (liquidate (ctx 1500000000) before_mint) = true
  /\ commit before_redeem
       (redeemCollateral Poseidon_hash (ctx 1500000001) before_redeem 1 secret)
     = st
  /\ isOk (liquidate (ctx 1500000001) before_redeem) = true.
Proof.
  intros owner ctx st before_mint before_redeem.
  assert (Hs : forall c d, opens Poseidon_hash (mkVault c d owner false) secret)
    by (intros; reflexivity).
  split; [vm_compute; reflexivity|].
  split; [reflexivity|].
  split; [reflexivity|].
  split; [vm_compute; reflexivity|].
  split; [vm_compute; reflexivity|].
  split.
  { rewrite (redeem_checks_passed Poseidon_hash (ctx 1500000000) st 0 secret)
      with (hf := 100);
      [ | reflexivity | apply Hs | simpl; lia | simpl; in_range
        | vm_compute; reflexivity ].
    vm_compute. reflexivity. }
  split.
  { rewrite (mint_success Poseidon_hash (ctx 1500000000) before_mint recipient
               1 secret) with (hf := 100);
      [ reflexivity | lia | apply Hs | simpl; in_range
        | vm_compute; reflexivity | split; vm_compute; discriminate ]. }
  split; [vm_compute; reflexivity|].
  split; [|vm_compute; reflexivity].
  rewrite (redeem_checks_passed Poseidon_hash (ctx 1500000001) before_redeem 1
             secret) with (hf := 100);
    [ | reflexivity | apply Hs | simpl; lia | simpl; in_range
      | vm_compute; reflexivity ].
  vm_compute. reflexivity.
Qed.


End VaultClaims.

(** ** Concrete runs *)

Lemma aliceVault_wf : wfState aliceVault.
Proof. split; simpl; in_range. Qed.

Lemma aliceCtx_wf : wfContext aliceCtx.
Proof. repeat split; simpl; in_range. Qed.

Lemma depositCollateral_checked_witness :
  isOk (depositCollateral testHash aliceCtx aliceVault 1000000000 42) = true /\
  collateralAmount
    (commit aliceVault
       (depositCollateral testHash aliceCtx aliceVault 1000000000 42)) =
  collateralAmount aliceVault + 1000000000.
Proof.
  assert (Ha : UInt64.inRange 1000000000) by in_range.
  pose proof (depositCollateral_checked testHash aliceCtx aliceVault
                1000000000 42 aliceVault_wf Ha) as H.
  cbv zeta in H. destruct H as (H & _).
  destruct H as (H1 & H2 & _);
    [lia | reflexivity | rewrite MAXINT_value; simpl; lia |].
  split; assumption.
Defined.

(** C8, as stated, fails: a vault whose collateral is the largest
    [UInt64] rejects a deposit of one unit presented with the right
    secret, so the collateral does not grow by the amount. *)
Lemma depositCollateral_overflow_counterexample :
  wfState fullVault /\ UInt64.inRange 1 /\
  0 < 1 /\ opens testHash fullVault 42 /\
  depositCollateral testHash aliceCtx fullVault 1 42 = Err UInt64Overflow /\
  collateralAmount
    (commit fullVault (depositCollateral testHash aliceCtx fullVault 1 42))
  <> collateralAmount fullVault + 1.
Proof.
  split; [split; simpl; in_range|]. split; [in_range|]. split; [lia|].
  split; [reflexivity|]. split; [vm_compute; reflexivity|].
  vm_compute. discriminate.
Qed.

Lemma mintZkUsd_guarded_witness :
  mintZkUsd testHash aliceCtx aliceVault "bob"%string 62000000000 42
  = Err HEALTH_FACTOR_TOO_LOW.
Proof.
  assert (Ha : UInt64.inRange 62000000000) by in_range.
  pose proof (mintZkUsd_guarded testHash aliceCtx aliceVault "bob"%string
                62000000000 42 aliceVault_wf Ha) as H.
  cbv zeta in H. destruct H as (_ & _ & H & _).
  apply (H 99); [lia | reflexivity | rewrite MAXINT_value; simpl; lia
                | vm_compute; reflexivity | lia].
Defined.

Lemma liquidate_guarded_witness :
  exists hf,
    calculateHealthFactor (collateralAmount aliceVault) (debtAmount aliceVault)
      (oraclePrice aliceCtx) = Ok hf /\
    (isOk (liquidate aliceCtx aliceVault) = true <-> hf <= 100).
Proof.
  destruct (liquidate_guarded aliceCtx aliceVault aliceVault_wf aliceCtx_wf)
    as (hf & H1 & H2 & _).
  exists hf. split; assumption.
Defined.

Lemma redeemCollateral_checked_witness :
  redeemCollateral testHash aliceCtx aliceVault 100000000001 42
  = Err INSUFFICIENT_COLLATERAL.
Proof.
  assert (Ha : UInt64.inRange 100000000001) by in_range.
  pose proof (redeemCollateral_checked testHash aliceCtx aliceVault
                100000000001 42 aliceVault_wf aliceCtx_wf Ha) as H.
  cbv zeta in H. destruct H as (_ & _ & H & _).
  apply H; [simpl; lia | reflexivity | simpl; lia].
Defined.

(** C6, as stated, fails: none of the four rejection conditions holds
    (positive balance, right secret, amount within the collateral,
    health factor 1320 after the redemption), yet the redemption is
    rejected, because the accrued yield times the protocol fee does not
    fit in a [UInt64]. *)
Lemma redeemCollateral_payout_counterexample :
  wfState aliceVault /\ wfContext yieldCtx /\ UInt64.inRange 1000000000 /\
  balance yieldCtx <> 0 /\
  opens testHash aliceVault 42 /\
  1000000000 <= collateralAmount aliceVault /\
  calculateHealthFactor (collateralAmount aliceVault - 1000000000)
    (debtAmount aliceVault) (oraclePrice yieldCtx) = Ok 1320 /\
  100 <= 1320 /\
  redeemCollateral testHash yieldCtx aliceVault 1000000000 42
  = Err UInt64Overflow /\
  isOk (redeemCollateral testHash yieldCtx aliceVault 1000000000 42) = false.
Proof.
  split; [exact aliceVault_wf|].
  split; [repeat split; simpl; in_range|].
  split; [in_range|].
  split; [simpl; lia|].
  split; [reflexivity|].
  split; [simpl; lia|].
  split; [vm_compute; reflexivity|].
  split; [lia|].
  split; vm_compute; reflexivity.
Qed.

(** The same redemption is also rejected when the account balance does
    not cover the recorded collateral. *)
Example redeemCollateral_underfunded :
  redeemCollateral testHash
    (mkContext "vault"%string "alice"%string 99000000000 1000000000 20)
    aliceVault 1000000000 42
  = Err UInt64Underflow.
Proof. vm_compute. reflexivity. Qed.

(** A vault with 100 units of collateral and no debt mints 5 units at
    price 1: the result is [aliceVault] with the flag raised. *)
Example mintZkUsd_run :
  mintZkUsd testHash aliceCtx
    (mkVault 100000000000 0 (testHash [42]) false) "alice"%string 5000000000 42
  = Ok (set_interactionFlag true aliceVault,
        [TokenMint "alice"%string 5000000000;
         EmitEvent (MintZkUsdEvent "vault"%string 5000000000 100000000000 0)]).
Proof. vm_compute. reflexivity. Qed.

(** With the balance equal to the collateral the redemption goes
    through and pays out exactly the amount. *)
Example redeemCollateral_run :
  redeemCollateral testHash aliceCtx aliceVault 1000000000 42
  = Ok (mkVault 99000000000 5000000000 (testHash [42]) false,
        [Send "vault"%string "alice"%string 1000000000;
         EmitEvent (RedeemCollateralEvent "vault"%string 1000000000
                      100000000000 5000000000)]).
Proof. vm_compute. reflexivity. Qed.


(** * Further properties of the contract *)

(** ** What a successful call tells *)

Section Inversions.

Variable Poseidon_hash : list Z -> Z.
Variable ctx : Context.
Variable st st' : VaultState.
Variable effs : list Effect.

Lemma deposit_Ok_inv (amount secret : Z) :
  depositCollateral Poseidon_hash ctx st amount secret = Ok (st', effs) ->
  0 < amount /\ opens Poseidon_hash st secret /\
  UInt64.inRange (collateralAmount st + amount) /\
  st' = set_collateralAmount (collateralAmount st + amount) st /\
  effs = [Send (sender ctx) (address ctx) amount;
          EmitEvent (DepositCollateralEvent (address ctx) amount
                       (collateralAmount st) (debtAmount st))].
Proof.
  unfold depositCollateral. intros H.
  apply bind_Ok_inv in H as (u1 & H1 & H).
  apply assert_Ok_inv, Z.ltb_lt in H1.
  apply bind_Ok_inv in H as (u2 & H2 & H).
  apply assert_Ok_inv, Z.eqb_eq in H2.
  apply bind_Ok_inv in H as (c' & H3 & H).
  apply UInt64_add_inv in H3 as [-> Hr].
  injection H as <- <-.
  split; [exact H1|]. split; [exact H2|]. split; [exact Hr|].
  split; reflexivity.
Qed.

Lemma burn_Ok_inv (amount secret : Z) :
  burnZkUsd Poseidon_hash ctx st amount secret = Ok (st', effs) ->
  0 < amount /\ opens Poseidon_hash st secret /\
  amount <= debtAmount st /\
  UInt64.inRange (debtAmount st - amount) /\
  st' = set_debtAmount (debtAmount st - amount) st /\
  effs = [TokenBurn (sender ctx) amount;
          EmitEvent (BurnZkUsdEvent (address ctx) amount
                       (collateralAmount st) (debtAmount st))].
Proof.
  unfold burnZkUsd. intros H.
  apply bind_Ok_inv in H as (u1 & H1 & H).
  apply assert_Ok_inv, Z.ltb_lt in H1.
  apply bind_Ok_inv in H as (u2 & H2 & H).
  apply assert_Ok_inv, Z.eqb_eq in H2.
  apply bind_Ok_inv in H as (u3 & H3 & H).
  apply assert_Ok_inv, Z.leb_le in H3.
  apply bind_Ok_inv in H as (d' & H4 & H).
  apply UInt64_sub_inv in H4 as [-> Hr].
  injection H as <- <-.
  split; [exact H1|]. split; [exact H2|]. split; [exact H3|].
  split; [exact Hr|]. split; reflexivity.
Qed.

Lemma liquidate_Ok_inv :
  liquidate ctx st = Ok (st', effs) ->
  (exists hf,
      calculateHealthFactor (collateralAmount st) (debtAmount st)
        (oraclePrice ctx) = Ok hf /\ hf <= MIN_HEALTH_FACTOR) /\
  st' = mkVault 0 0 (ownershipHash st) (interactionFlag st) /\
  effs = [Send (address ctx) (sender ctx) (collateralAmount st);
          TokenBurn (sender ctx) (debtAmount st);
          EmitEvent (LiquidateEvent (address ctx) (sender ctx)
                       (collateralAmount st) (debtAmount st)
                       (oraclePrice ctx))].
Proof.
  unfold liquidate. intros H.
  apply bind_Ok_inv in H as (hf & H1 & H).
  apply bind_Ok_inv in H as (u2 & H2 & H).
  apply assert_Ok_inv, Z.leb_le in H2.
  injection H as <- <-.
  split; [eauto|]. split; reflexivity.
Qed.

Lemma redeemPayout_Ok_inv (amount remaining : Z) :
  redeemPayout ctx st amount remaining = Ok (st', effs) ->
  UInt64.inRange (balance ctx - collateralAmount st) /\
  UInt64.inRange ((balance ctx - collateralAmount st) * protocolFee ctx) /\
  UInt64.inRange (balance ctx - collateralAmount st - yieldFee ctx st) /\
  st' = set_collateralAmount remaining st /\
  effs = (if 0 <? yieldFee ctx st
          then [Send (address ctx) PROTOCOL_VAULT_ADDRESS (yieldFee ctx st)]
          else []) ++
         [Send (address ctx) (sender ctx)
            (amount + (balance ctx - collateralAmount st - yieldFee ctx st));
          EmitEvent (RedeemCollateralEvent (address ctx) amount
                       (collateralAmount st) (debtAmount st))].
Proof.
  unfold redeemPayout. intros H.
  apply bind_Ok_inv in H as (rw & H1 & H).
  apply UInt64_sub_inv in H1 as [-> Hr1].
  apply bind_Ok_inv in H as (num & H2 & H).
  unfold UInt64.mul in H2.
  destruct (UInt64.inRangeb
              ((balance ctx - collateralAmount st) * protocolFee ctx))
    eqn:E2; [|discriminate].
  injection H2 as <-. apply inRangeb_iff in E2.
  apply bind_Ok_inv in H as (fee & H3 & H).
  unfold UInt64.div in H3.
  change (PROTOCOL_FEE_PRECISION =? 0) with false in H3.
  injection H3 as <-. fold (yieldFee ctx st) in H.
  apply bind_Ok_inv in H as (dv & H4 & H).
  apply UInt64_sub_inv in H4 as [-> Hr4].
  apply bind_Ok_inv in H as (pay & H5 & H).
  apply UInt64_add_inv in H5 as [-> Hr5].
  injection H as <- <-.
  split; [exact Hr1|]. split; [exact E2|]. split; [exact Hr4|].
  split; reflexivity.
Qed.

Lemma redeem_Ok_inv (amount secret : Z) :
  redeemCollateral Poseidon_hash ctx st amount secret = Ok (st', effs) ->
  0 < balance ctx /\ opens Poseidon_hash st secret /\
  amount <= collateralAmount st /\
  UInt64.inRange (collateralAmount st - amount) /\
  (exists hf,
      calculateHealthFactor (collateralAmount st - amount) (debtAmount st)
        (oraclePrice ctx) = Ok hf /\ MIN_HEALTH_FACTOR <= hf) /\
  redeemPayout ctx st amount (collateralAmount st - amount) = Ok (st', effs).
Proof.
  unfold redeemCollateral. intros H.
  apply bind_Ok_inv in H as (u1 & H1 & H).
  apply assert_Ok_inv, Z.ltb_lt in H1.
  apply bind_Ok_inv in H as (u2 & H2 & H).
  apply assert_Ok_inv, Z.eqb_eq in H2.
  apply bind_Ok_inv in H as (u3 & H3 & H).
  apply assert_Ok_inv, Z.leb_le in H3.
  apply bind_Ok_inv in H as (rem & H4 & H).
  apply UInt64_sub_inv in H4 as [-> Hr].
  apply bind_Ok_inv in H as (hf & H5 & H).
  apply bind_Ok_inv in H as (u6 & H6 & H).
  apply (wrapped_guard_Ok_inv hf _ u6
           (calculateHealthFactor_canonical _ _ _ _ H5)) in H6 as [H6 _].
  split; [exact H1|]. split; [exact H2|]. split; [exact H3|].
  split; [exact Hr|]. split; [eauto|]. exact H.
Qed.

End Inversions.

(** ** State changes of a successful call *)

Lemma invoke_Ok_cases (Poseidon_hash : list Z -> Z) (ctx : Context)
    (st st' : VaultState) (m : Method) (effs : list Effect) :
  invoke Poseidon_hash ctx st m = Ok (st', effs) ->
  match m with
  | DepositCollateral amount _ =>
      st' = set_collateralAmount (collateralAmount st + amount) st /\
      UInt64.inRange (collateralAmount st + amount)
  | RedeemCollateral amount _ =>
      st' = set_collateralAmount (collateralAmount st - amount) st /\
      UInt64.inRange (collateralAmount st - amount)
  | MintZkUsd _ amount _ =>
      st' = set_interactionFlag true
              (set_debtAmount (debtAmount st + amount) st) /\
      UInt64.inRange (debtAmount st + amount)
  | BurnZkUsd amount _ =>
      st' = set_debtAmount (debtAmount st - amount) st /\
      UInt64.inRange (debtAmount st - amount)
  | Liquidate => st' = mkVault 0 0 (ownershipHash st) (interactionFlag st)
  | GetHealthFactor => st' = st /\ effs = []
  | AssertInteractionFlag => st' = set_interactionFlag false st /\ effs = []
  end.
Proof.
  intros H. destruct m; cbn [invoke] in H.
  - apply deposit_Ok_inv in H as (_ & _ & Hr & -> & _). split; [reflexivity|exact Hr].
  - apply redeem_Ok_inv in H as (_ & _ & _ & Hr & _ & H).
    apply redeemPayout_Ok_inv in H as (_ & _ & _ & -> & _).
    split; [reflexivity|exact Hr].
  - apply mint_Ok_inv in H as (_ & _ & Hr & _ & -> & _).
    split; [reflexivity|exact Hr].
  - apply burn_Ok_inv in H as (_ & _ & _ & Hr & -> & _).
    split; [reflexivity|exact Hr].
  - apply liquidate_Ok_inv in H as (_ & -> & _). reflexivity.
  - apply bind_Ok_inv in H as (hf & _ & H). injection H as <- <-.
    split; reflexivity.
  - apply bind_Ok_inv in H as ([s b] & Ha & H). injection H as <- <-.
    unfold assertInteractionFlag in Ha.
    apply bind_Ok_inv in Ha as (u & _ & Ha). injection Ha as <- _.
    split; reflexivity.
Qed.

Lemma invoke_preserves_wfInitial (Poseidon_hash : list Z -> Z) (secret : Z)
    (ctx : Context) (st st' : VaultState) (m : Method) (effs : list Effect) :
  wfInitial Poseidon_hash secret st ->
  invoke Poseidon_hash ctx st m = Ok (st', effs) ->
  wfInitial Poseidon_hash secret st'.
Proof.
  intros [[Hc Hd] Hh] H. apply invoke_Ok_cases in H.
  assert (H0 : UInt64.inRange 0) by in_range.
  unfold wfInitial, wfState.
  destruct m;
    [destruct H as [-> Hr] | destruct H as [-> Hr] | destruct H as [-> Hr]
    | destruct H as [-> Hr] | subst st' | destruct H as [-> _]
    | destruct H as [-> _] ];
    cbn [collateralAmount debtAmount ownershipHash set_collateralAmount
         set_debtAmount set_interactionFlag];
    repeat split; solve [assumption | apply Hc | apply Hd | apply Hr | apply H0].
Qed.

(** X1. [burnZkUsd] rejects a zero amount with [AMOUNT_ZERO], then a
    wrong secret with [INVALID_SECRET], then an amount above the debt
    with [AMOUNT_EXCEEDS_DEBT]; otherwise it succeeds, lowers the debt
    by exactly the amount, leaves the other fields alone and asks the
    token ledger to burn the amount from the sender. *)
Theorem burnZkUsd_checked (Poseidon_hash : list Z -> Z) (ctx : Context)
    (st : VaultState) (amount secret : Z) :
  wfState st -> UInt64.inRange amount ->
  let r := burnZkUsd Poseidon_hash ctx st amount secret in
  (amount = 0 -> r = Err AMOUNT_ZERO)
  /\ (0 < amount -> ~ opens Poseidon_hash st secret -> r = Err INVALID_SECRET)
  /\ (0 < amount -> opens Poseidon_hash st secret ->
      debtAmount st < amount -> r = Err AMOUNT_EXCEEDS_DEBT)
  /\ (0 < amount -> opens Poseidon_hash st secret ->
      amount <= debtAmount st ->
      r = Ok (mkVault (collateralAmount st) (debtAmount st - amount)
                (ownershipHash st) (interactionFlag st),
              [TokenBurn (sender ctx) amount;
               EmitEvent (BurnZkUsdEvent (address ctx) amount
                            (collateralAmount st) (debtAmount st))])).
Proof.
  intros [Hc Hd] Ha r. subst r. unfold burnZkUsd.
  split; [|split; [|split]].
  - intros ->. reflexivity.
  - intros Hpos Hs.
    rewrite assertGreaterThan_ok by (unfold UInt64.zero; lia). cbn [bind].
    rewrite secret_wrong by exact Hs. reflexivity.
  - intros Hpos Hs Hgt.
    rewrite assertGreaterThan_ok by (unfold UInt64.zero; lia). cbn [bind].
    rewrite secret_ok by exact Hs. cbn [bind].
    rewrite assertGreaterThanOrEqual_fail by exact Hgt. reflexivity.
  - intros Hpos Hs Hle.
    rewrite assertGreaterThan_ok by (unfold UInt64.zero; lia). cbn [bind].
    rewrite secret_ok by exact Hs. cbn [bind].
    rewrite assertGreaterThanOrEqual_ok by exact Hle. cbn [bind].
    rewrite UInt64_sub_ok by (unfold UInt64.inRange in *; lia). reflexivity.
Qed.

Lemma burnZkUsd_checked_witness :
  burnZkUsd testHash aliceCtx aliceVault 6000000000 42 = Err AMOUNT_EXCEEDS_DEBT.
Proof.
  assert (Ha : UInt64.inRange 6000000000) by in_range.
  pose proof (burnZkUsd_checked testHash aliceCtx aliceVault 6000000000 42
                aliceVault_wf Ha) as H.
  cbv zeta in H. destruct H as (_ & _ & H & _).
  apply H; [lia | reflexivity | simpl; lia].
Defined.

(** X2. Every state a vault reaches from its deployment, through any
    sequence of successful calls with any arguments, keeps both amounts
    in the [UInt64] range and keeps the ownership commitment set at
    deployment. *)
Theorem reachable_invariant (Poseidon_hash : list Z -> Z) (secret : Z)
    (st : VaultState) :
  reachable Poseidon_hash secret st ->
  wfState st /\ ownershipHash st = Poseidon_hash [secret].
Proof.
  intros H. change (wfInitial Poseidon_hash secret st).
  induction H as [ctx st effs Hd | ctx st st' m effs Hr IH Hi].
  - unfold deploy in Hd. injection Hd as <- _.
    repeat split; simpl; rewrite ?MAXINT_value; lia.
  - exact (invoke_preserves_wfInitial _ _ _ _ _ _ _ IH Hi).
Qed.

Lemma reachable_invariant_witness :
  wfState (mkVault 1000000000 0 (testHash [42]) false) /\
  ownershipHash (mkVault 1000000000 0 (testHash [42]) false) = testHash [42].
Proof.
  apply (reachable_invariant testHash 42).
  apply (reachable_invoke testHash 42 aliceCtx
           (mkVault 0 0 (testHash [42]) false) _
           (DepositCollateral 1000000000 42)
           [Send "alice"%string "vault"%string 1000000000;
            EmitEvent (DepositCollateralEvent "vault"%string 1000000000 0 0)]).
  - apply (reachable_deploy testHash 42 aliceCtx _
             [EmitEvent (NewVaultEvent "vault"%string)]).
    reflexivity.
  - vm_compute. reflexivity.
Defined.

(** X3. Which amounts a successful call can change: [depositCollateral]
    and [redeemCollateral] never touch the debt, [mintZkUsd] and
    [burnZkUsd] never touch the collateral, [liquidate] zeroes both,
    [getHealthFactor] and [assertInteractionFlag] change neither and
    have no effects. *)
Theorem invoke_amounts_frame (Poseidon_hash : list Z -> Z) (ctx : Context)
    (st st' : VaultState) (m : Method) (effs : list Effect) :
  invoke Poseidon_hash ctx st m = Ok (st', effs) ->
  match m with
  | DepositCollateral amount _ =>
      collateralAmount st' = collateralAmount st + amount /\
      debtAmount st' = debtAmount st
  | RedeemCollateral amount _ =>
      collateralAmount st' = collateralAmount st - amount /\
      debtAmount st' = debtAmount st
  | MintZkUsd _ amount _ =>
      collateralAmount st' = collateralAmount st /\
      debtAmount st' = debtAmount st + amount
  | BurnZkUsd amount _ =>
      collateralAmount st' = collateralAmount st /\
      debtAmount st' = debtAmount st - amount
  | Liquidate => collateralAmount st' = 0 /\ debtAmount st' = 0
  | GetHealthFactor => st' = st /\ effs = []
  | AssertInteractionFlag =>
      collateralAmount st' = collateralAmount st /\
      debtAmount st' = debtAmount st /\ effs = []
  end.
Proof.
  intros H. apply invoke_Ok_cases in H. destruct m.
  - destruct H as [-> _]. split; reflexivity.
  - destruct H as [-> _]. split; reflexivity.
  - destruct H as [-> _]. split; reflexivity.
  - destruct H as [-> _]. split; reflexivity.
  - subst st'. split; reflexivity.
  - exact H.
  - destruct H as [-> ->]. repeat split.
Qed.

Lemma invoke_amounts_frame_witness :
  collateralAmount burntVault = collateralAmount aliceVault /\
  debtAmount burntVault = debtAmount aliceVault - 1000000000.
Proof.
  assert (H : invoke testHash aliceCtx aliceVault (BurnZkUsd 1000000000 42)
              = Ok (burntVault, burnEffects)) by (vm_compute; reflexivity).
  exact (invoke_amounts_frame testHash aliceCtx aliceVault burntVault _ _ H).
Defined.

(** ** More on the health-factor arithmetic *)

Lemma div_ge_iff (a b q : Z) : 0 < b -> (q <= a / b <-> b * q <= a).
Proof.
  intros Hb. split.
  - intros H. pose proof (Z.mul_div_le a b Hb). nia.
  - intros H. apply Z.div_le_lower_bound; assumption.
Qed.

Lemma spec_maxAllowedDebt_mono (c1 p1 c2 p2 : Z) :
  c1 * p1 <= c2 * p2 ->
  spec_maxAllowedDebt c1 p1 <= spec_maxAllowedDebt c2 p2.
Proof.
  intros H. unfold spec_maxAllowedDebt.
  assert (H1 : c1 * p1 / UNIT_PRECISION <= c2 * p2 / UNIT_PRECISION)
    by (apply Z.div_le_mono; [reflexivity | exact H]).
  assert (H2 : c1 * p1 / UNIT_PRECISION * 100 / 150
               <= c2 * p2 / UNIT_PRECISION * 100 / 150)
    by (apply Z.div_le_mono; lia).
  lia.
Qed.

Lemma spec_healthFactor_mono (c1 p1 c2 p2 d1 d2 : Z) :
  0 <= c1 * p1 <= c2 * p2 ->
  0 <= d2 <= d1 -> (d2 = 0 -> d1 = 0) ->
  spec_healthFactor c1 d1 p1 <= spec_healthFactor c2 d2 p2.
Proof.
  intros [H0 H] Hd Hz. unfold spec_healthFactor, spec_safeDiv.
  pose proof (spec_maxAllowedDebt_mono c1 p1 c2 p2 H) as HM.
  assert (HM0 : 0 <= spec_maxAllowedDebt c1 p1).
  { unfold spec_maxAllowedDebt.
    assert (0 <= c1 * p1 / UNIT_PRECISION)
      by (apply Z.div_pos; [exact H0 | reflexivity]).
    assert (0 <= c1 * p1 / UNIT_PRECISION * 100 / 150)
      by (apply Z.div_pos; lia).
    lia. }
  destruct (d2 =? 0) eqn:E2.
  - apply Z.eqb_eq in E2. rewrite (Hz E2). simpl. lia.
  - apply Z.eqb_neq in E2.
    assert (E1 : (d1 =? 0) = false) by (apply Z.eqb_neq; lia).
    rewrite E1.
    transitivity (spec_maxAllowedDebt c1 p1 / d2).
    + apply Z.div_le_compat_l; [exact HM0 | lia].
    + apply Z.div_le_mono; [lia | exact HM].
Qed.

(** X4. The health factor never decreases when the collateral or the
    price grows, nor when a positive debt shrinks to a smaller positive
    debt. *)
Theorem calculateHealthFactor_monotone (c1 c2 d1 d2 p1 p2 : Z) :
  UInt64.inRange c1 -> UInt64.inRange c2 ->
  UInt64.inRange d1 -> UInt64.inRange d2 ->
  UInt64.inRange p1 -> UInt64.inRange p2 ->
  c1 <= c2 -> p1 <= p2 -> d2 <= d1 -> (d2 = 0 -> d1 = 0) ->
  exists h1 h2,
    calculateHealthFactor c1 d1 p1 = Ok h1 /\
    calculateHealthFactor c2 d2 p2 = Ok h2 /\
    h1 <= h2.
Proof.
  intros Hc1 Hc2 Hd1 Hd2 Hp1 Hp2 Hc Hp Hd Hz.
  exists (spec_healthFactor c1 d1 p1), (spec_healthFactor c2 d2 p2).
  split; [apply calculateHealthFactor_ok; assumption|].
  split; [apply calculateHealthFactor_ok; assumption|].
  unfold UInt64.inRange in *.
  apply spec_healthFactor_mono; [nia | lia | exact Hz].
Qed.

Lemma calculateHealthFactor_monotone_witness :
  exists h1 h2,
    calculateHealthFactor 1000000000 2000000000 1000000000 = Ok h1 /\
    calculateHealthFactor 3000000000 1000000000 1000000000 = Ok h2 /\
    h1 <= h2.
Proof.
  apply (calculateHealthFactor_monotone 1000000000 3000000000 2000000000
           1000000000 1000000000 1000000000);
    try in_range; lia.
Defined.

(** X5. For a positive debt the health factor is at least 100 exactly
    when the collateral value floor(c * p / 1e9) is at least 150% of the
    debt, i.e. 3 * debt <= 2 * value. *)
Theorem health_factor_threshold (c d p : Z) :
  UInt64.inRange c -> UInt64.inRange d -> UInt64.inRange p -> 0 < d ->
  exists hf,
    calculateHealthFactor c d p = Ok hf /\
    (MIN_HEALTH_FACTOR <= hf <-> 3 * d <= 2 * (c * p / UNIT_PRECISION)).
Proof.
  intros Hc Hd Hp Hpos. exists (spec_healthFactor c d p).
  split; [apply calculateHealthFactor_ok; assumption|].
  unfold spec_healthFactor, spec_safeDiv, spec_maxAllowedDebt,
    MIN_HEALTH_FACTOR.
  replace (d =? 0) with false by (symmetry; apply Z.eqb_neq; lia).
  set (v := c * p / UNIT_PRECISION).
  rewrite (div_ge_iff (v * 100 / 150 * 100) d 100 Hpos).
  assert (H150 : d <= v * 100 / 150 <-> 150 * d <= v * 100)
    by (apply div_ge_iff; lia).
  lia.
Qed.

Lemma health_factor_threshold_witness :
  exists hf,
    calculateHealthFactor 1500000000 1000000000 1000000000 = Ok hf /\
    (MIN_HEALTH_FACTOR <= hf <->
     3 * 1000000000 <= 2 * (1500000000 * 1000000000 / UNIT_PRECISION)).
Proof.
  apply (health_factor_threshold 1500000000 1000000000 1000000000);
    try in_range; lia.
Defined.

(** X6. The maximum allowed debt computed from a collateral and a price
    is a multiple of 100 and is the largest such multiple not above two
    thirds of the collateral value taken 100 times: with
    v = floor(c * p / 1e9) and m the result,
    3 * m <= 200 * v < 3 * m + 300. *)
Theorem calculateMaxAllowedDebt_bounds (c p : Z) :
  UInt64.inRange c -> UInt64.inRange p ->
  exists v m,
    calculateUsdValue c p = Ok v /\
    calculateMaxAllowedDebt v = Ok m /\
    v * UNIT_PRECISION <= c * p < (v + 1) * UNIT_PRECISION /\
    m mod 100 = 0 /\
    3 * m <= 200 * v < 3 * m + 300.
Proof.
  intros Hc Hp.
  pose proof (uint64_product_bound c p Hc Hp) as Hcp.
  pose proof (collateral_value_bound c p Hc Hp) as Hv.
  pose proof ORDER_large as HO.
  change (2 ^ 136) with (2 ^ 128 * 256) in HO.
  exists (c * p / UNIT_PRECISION), (c * p / UNIT_PRECISION * 100 / 150 * 100).
  split; [apply calculateUsdValue_ok; lia|].
  split; [apply calculateMaxAllowedDebt_ok; lia|].
  set (v := c * p / UNIT_PRECISION) in *.
  pose proof (Z.div_mod (c * p) UNIT_PRECISION ltac:(discriminate)) as Hdm.
  pose proof (Z.mod_pos_bound (c * p) UNIT_PRECISION ltac:(reflexivity)) as Hm.
  fold v in Hdm.
  pose proof (Z.div_mod (v * 100) 150 ltac:(lia)) as Hdm2.
  pose proof (Z.mod_pos_bound (v * 100) 150 ltac:(lia)) as Hm2.
  split; [unfold UNIT_PRECISION in *; lia|].
  split; [apply Z.mod_mul; lia|].
  lia.
Qed.

Lemma calculateMaxAllowedDebt_bounds_witness :
  exists v m,
    calculateUsdValue 1000000000 1000000000 = Ok v /\
    calculateMaxAllowedDebt v = Ok m /\ m mod 100 = 0.
Proof.
  assert (Hc : UInt64.inRange 1000000000) by in_range.
  destruct (calculateMaxAllowedDebt_bounds 1000000000 1000000000 Hc Hc)
    as (v & m & H1 & H2 & _ & H3 & _).
  exists v, m. repeat split; assumption.
Defined.

(** ** Health of the vault across calls *)

Section Health.

Variable Poseidon_hash : list Z -> Z.

(** X7. A vault without debt can never be liquidated, whatever the
    price; in particular a second [liquidate] right after a successful
    one is rejected. *)
Theorem liquidate_needs_debt (ctx : Context) (st : VaultState) :
  wfState st -> UInt64.inRange (oraclePrice ctx) ->
  (debtAmount st = 0 -> liquidate ctx st = Err HEALTH_FACTOR_TOO_HIGH)
  /\ (forall st' effs ctx',
        liquidate ctx st = Ok (st', effs) ->
        UInt64.inRange (oraclePrice ctx') ->
        liquidate ctx' st' = Err HEALTH_FACTOR_TOO_HIGH).
Proof.
  intros [Hc Hd] Hp.
  assert (Hzero : forall c s, UInt64.inRange (collateralAmount s) ->
                    UInt64.inRange (oraclePrice c) -> debtAmount s = 0 ->
                    liquidate c s = Err HEALTH_FACTOR_TOO_HIGH).
  { intros c s Hcs Hps H0.
    apply (liquidate_health_factor_too_high c s UInt64.MAXINT).
    - rewrite H0. rewrite calculateHealthFactor_ok;
        [reflexivity | exact Hcs | in_range | exact Hps].
    - reflexivity. }
  split; [apply Hzero; assumption|].
  intros st' effs ctx' H Hp'.
  apply liquidate_Ok_inv in H as (_ & -> & _).
  apply Hzero; [simpl; in_range | exact Hp' | reflexivity].
Qed.

(** X8. After a successful [mintZkUsd] or [redeemCollateral] the health
    factor of the new state, at the price the call used, is at least
    100. *)
Theorem mint_redeem_leave_healthy (ctx : Context) (st st' : VaultState)
    (m : Method) (effs : list Effect) :
  invoke Poseidon_hash ctx st m = Ok (st', effs) ->
  match m with
  | MintZkUsd _ _ _ | RedeemCollateral _ _ =>
      exists hf, getHealthFactor ctx st' = Ok hf /\ MIN_HEALTH_FACTOR <= hf
  | _ => True
  end.
Proof.
  intros H. destruct m; try exact I; cbn [invoke] in H; unfold getHealthFactor.
  - apply redeem_Ok_inv in H as (_ & _ & _ & _ & Hhf & H).
    apply redeemPayout_Ok_inv in H as (_ & _ & _ & -> & _). exact Hhf.
  - apply mint_Ok_inv in H as (_ & _ & _ & Hhf & -> & _). exact Hhf.
Qed.

(** X9. A successful [depositCollateral] never lowers the health
    factor, and neither does a successful [burnZkUsd] that leaves some
    debt. *)
Theorem deposit_burn_keep_health (ctx : Context) (st st' : VaultState)
    (m : Method) (effs : list Effect) :
  wfState st -> UInt64.inRange (oraclePrice ctx) ->
  invoke Poseidon_hash ctx st m = Ok (st', effs) ->
  match m with
  | DepositCollateral _ _ =>
      exists h h', getHealthFactor ctx st = Ok h /\
                   getHealthFactor ctx st' = Ok h' /\ h <= h'
  | BurnZkUsd amount _ =>
      amount < debtAmount st ->
      exists h h', getHealthFactor ctx st = Ok h /\
                   getHealthFactor ctx st' = Ok h' /\ h <= h'
  | _ => True
  end.
Proof.
  intros [Hc Hd] Hp H.
  destruct m; try exact I; cbn [invoke] in H; unfold getHealthFactor.
  - apply deposit_Ok_inv in H as (Hpos & _ & Hr & -> & _).
    cbn [collateralAmount debtAmount set_collateralAmount].
    do 2 eexists.
    split; [apply calculateHealthFactor_ok; assumption|].
    split; [apply calculateHealthFactor_ok; assumption|].
    unfold UInt64.inRange in *.
    apply spec_healthFactor_mono; [nia | lia | tauto].
  - intros Hlt. apply burn_Ok_inv in H as (Hpos & _ & _ & Hr & -> & _).
    cbn [collateralAmount debtAmount set_debtAmount].
    do 2 eexists.
    split; [apply calculateHealthFactor_ok; assumption|].
    split; [apply calculateHealthFactor_ok; assumption|].
    unfold UInt64.inRange in *.
    apply spec_healthFactor_mono; [nia | lia | lia].
Qed.

(** X10. Collateral worth less than two units of value supports no
    debt: when collateral * price < 2e9 every [mintZkUsd] is rejected,
    and a vault that owes anything can be liquidated. *)
Theorem dust_collateral (ctx : Context) (st : VaultState) :
  wfState st -> UInt64.inRange (oraclePrice ctx) ->
  collateralAmount st * oraclePrice ctx < 2 * UNIT_PRECISION ->
  (forall recipient amount secret,
      isOk (mintZkUsd Poseidon_hash ctx st recipient amount secret) = false)
  /\ (0 < debtAmount st -> isOk (liquidate ctx st) = true).
Proof.
  intros [Hc Hd] Hp Hdust.
  assert (HM : spec_maxAllowedDebt (collateralAmount st) (oraclePrice ctx) = 0).
  { unfold spec_maxAllowedDebt.
    pose proof (uint64_product_bound _ _ Hc Hp) as [H0 _].
    assert (Hv : 0 <= collateralAmount st * oraclePrice ctx / UNIT_PRECISION < 2).
    { split; [apply Z.div_pos; [exact H0 | reflexivity]|].
      apply Z.div_lt_upper_bound; [reflexivity | lia]. }
    rewrite (Z.div_small (_ * 100) 150) by lia. reflexivity. }
  assert (HF : forall d, UInt64.inRange d -> 0 < d ->
                 calculateHealthFactor (collateralAmount st) d (oraclePrice ctx)
                 = Ok 0).
  { intros d Hdr Hpos. rewrite calculateHealthFactor_ok by assumption.
    unfold spec_healthFactor, spec_safeDiv. rewrite HM.
    replace (d =? 0) with false by (symmetry; apply Z.eqb_neq; lia).
    reflexivity. }
  split.
  - intros recipient amount secret.
    destruct (mintZkUsd Poseidon_hash ctx st recipient amount secret)
      as [[st' effs]|e] eqn:E; [|reflexivity].
    apply mint_Ok_inv in E as (Hpos & _ & Hr & (hf & Hhf & Hge) & _).
    rewrite HF in Hhf by (unfold UInt64.inRange in *; lia || exact Hr).
    injection Hhf as <-. unfold MIN_HEALTH_FACTOR in Hge. lia.
  - intros Hpos.
    rewrite (liquidate_success ctx st 0);
      [reflexivity | apply HF; assumption | unfold MIN_HEALTH_FACTOR; lia].
Qed.

End Health.

Lemma liquidate_needs_debt_witness :
  liquidate aliceCtx (mkVault 100000000000 0 (testHash [42]) false)
  = Err HEALTH_FACTOR_TOO_HIGH.
Proof.
  assert (Hwf : wfState (mkVault 100000000000 0 (testHash [42]) false))
    by (split; simpl; in_range).
  assert (Hp : UInt64.inRange (oraclePrice aliceCtx)) by (simpl; in_range).
  apply (proj1 (liquidate_needs_debt aliceCtx _ Hwf Hp)). reflexivity.
Defined.

Lemma mint_redeem_leave_healthy_witness :
  exists hf,
    getHealthFactor aliceCtx (mkVault 99000000000 5000000000 (testHash [42]) false)
      = Ok hf /\ MIN_HEALTH_FACTOR <= hf.
Proof.
  assert (H : invoke testHash aliceCtx aliceVault (RedeemCollateral 1000000000 42)
              = Ok (mkVault 99000000000 5000000000 (testHash [42]) false,
                    [Send "vault"%string "alice"%string 1000000000;
                     EmitEvent (RedeemCollateralEvent "vault"%string 1000000000
                                  100000000000 5000000000)]))
    by (vm_compute; reflexivity).
  exact (mint_redeem_leave_healthy testHash aliceCtx aliceVault _ _ _ H).
Defined.

Lemma deposit_burn_keep_health_witness :
  exists h h',
    getHealthFactor aliceCtx aliceVault = Ok h /\
    getHealthFactor aliceCtx burntVault = Ok h' /\ h <= h'.
Proof.
  assert (Hp : UInt64.inRange (oraclePrice aliceCtx)) by (simpl; in_range).
  assert (H : invoke testHash aliceCtx aliceVault (BurnZkUsd 1000000000 42)
              = Ok (burntVault, burnEffects)) by (vm_compute; reflexivity).
  apply (deposit_burn_keep_health testHash aliceCtx aliceVault burntVault _ _
           aliceVault_wf Hp H).
  simpl. lia.
Defined.

Lemma dust_collateral_witness :
  isOk (mintZkUsd testHash aliceCtx (mkVault 1 0 (testHash [42]) false)
          "alice"%string 1 42) = false.
Proof.
  assert (Hwf : wfState (mkVault 1 0 (testHash [42]) false))
    by (split; simpl; in_range).
  assert (Hp : UInt64.inRange (oraclePrice aliceCtx)) by (simpl; in_range).
  apply (proj1 (dust_collateral testHash aliceCtx _ Hwf Hp ltac:(simpl; lia))).
Defined.

(** ** Composition of calls, transfers and events *)

Lemma set_collateralAmount_back (st : VaultState) (a : Z) :
  set_collateralAmount (collateralAmount st + a - a)
    (set_collateralAmount (collateralAmount st + a) st) = st.
Proof.
  destruct st as [c d h f]. unfold set_collateralAmount. simpl.
  f_equal. lia.
Qed.

Lemma yieldFee_nonneg (ctx : Context) (st : VaultState) :
  0 <= (balance ctx - collateralAmount st) * protocolFee ctx ->
  0 <= yieldFee ctx st.
Proof. intros H. unfold yieldFee. apply Z.div_pos; [exact H | reflexivity]. Qed.

Lemma sentBy_app (a : PublicKey) (l1 l2 : list Effect) :
  sentBy a (l1 ++ l2) = sentBy a l1 + sentBy a l2.
Proof.
  induction l1 as [|e l1 IH]; [reflexivity|].
  simpl. unfold sentBy in *. simpl. rewrite IH.
  destruct e; try reflexivity.
  destruct (String.eqb from a); lia.
Qed.

Lemma receivedBy_app (a : PublicKey) (l1 l2 : list Effect) :
  receivedBy a (l1 ++ l2) = receivedBy a l1 + receivedBy a l2.
Proof.
  induction l1 as [|e l1 IH]; [reflexivity|].
  simpl. unfold receivedBy in *. simpl. rewrite IH.
  destruct e; try reflexivity.
  destruct (String.eqb to a); lia.
Qed.

Lemma receivedBy_Send (a from to : PublicKey) (x : Z) (l : list Effect) :
  receivedBy a (Send from to x :: l)
  = if String.eqb to a then x + receivedBy a l else receivedBy a l.
Proof. reflexivity. Qed.

Lemma receivedBy_EmitEvent (a : PublicKey) (e : Event) (l : list Effect) :
  receivedBy a (EmitEvent e :: l) = receivedBy a l.
Proof. reflexivity. Qed.

Lemma receivedBy_nil (a : PublicKey) : receivedBy a [] = 0.
Proof. reflexivity. Qed.

Section Composition.

Variable Poseidon_hash : list Z -> Z.

(** X11. Round trips.  Redeeming the amount just deposited restores the
    vault state exactly; burning the amount just minted restores both
    amounts and leaves only the interaction flag raised. *)
Theorem round_trips (ctx1 ctx2 : Context) (st st1 st2 : VaultState)
    (effs1 effs2 : list Effect) (recipient : PublicKey)
    (amount secret1 secret2 : Z) :
  (depositCollateral Poseidon_hash ctx1 st amount secret1 = Ok (st1, effs1) ->
   redeemCollateral Poseidon_hash ctx2 st1 amount secret2 = Ok (st2, effs2) ->
   st2 = st)
  /\ (mintZkUsd Poseidon_hash ctx1 st recipient amount secret1 = Ok (st1, effs1) ->
      burnZkUsd Poseidon_hash ctx2 st1 amount secret2 = Ok (st2, effs2) ->
      st2 = set_interactionFlag true st).
Proof.
  split.
  - intros H1 H2.
    apply deposit_Ok_inv in H1 as (_ & _ & _ & -> & _).
    apply redeem_Ok_inv in H2 as (_ & _ & _ & _ & _ & H2).
    apply redeemPayout_Ok_inv in H2 as (_ & _ & _ & -> & _).
    cbn [collateralAmount set_collateralAmount].
    apply set_collateralAmount_back.
  - intros H1 H2.
    apply mint_Ok_inv in H1 as (_ & _ & _ & _ & -> & _).
    apply burn_Ok_inv in H2 as (_ & _ & _ & _ & -> & _).
    destruct st as [c d h f]. unfold set_debtAmount, set_interactionFlag.
    simpl. f_equal. lia.
Qed.

Lemma redeem_transfers (ctx : Context) (st st' : VaultState)
    (effs : list Effect) (amount secret : Z) :
  redeemCollateral Poseidon_hash ctx st amount secret = Ok (st', effs) ->
  collateralAmount st' = collateralAmount st - amount
  /\ sentBy (address ctx) effs = amount + (balance ctx - collateralAmount st)
  /\ (String.eqb (sender ctx) (address ctx) = false ->
      String.eqb PROTOCOL_VAULT_ADDRESS (address ctx) = false ->
      receivedBy (address ctx) effs = 0).
Proof.
  intros H.
  apply redeem_Ok_inv in H as (_ & _ & _ & _ & _ & H).
  apply redeemPayout_Ok_inv in H as (Hr & Hm & Hd & -> & ->).
  assert (Hfee : 0 <= yieldFee ctx st)
    by (apply yieldFee_nonneg; apply Hm).
  split; [reflexivity|]. split.
  - rewrite sentBy_app. unfold sentBy. simpl.
    rewrite String.eqb_refl.
    destruct (0 <? yieldFee ctx st) eqn:E; simpl.
    + rewrite String.eqb_refl. lia.
    + apply Z.ltb_ge in E. lia.
  - intros Hs Hp. rewrite receivedBy_app.
    rewrite receivedBy_Send, Hs, receivedBy_EmitEvent, receivedBy_nil.
    destruct (0 <? yieldFee ctx st);
      rewrite ?receivedBy_Send, ?Hp, ?receivedBy_nil; reflexivity.
Qed.

(** X12. A successful [redeemCollateral] sends out of the vault exactly
    the redeemed amount plus the whole balance above the recorded
    collateral (protocol fee and payout together), so that the balance
    left equals the new collateral. *)
Theorem redeem_sweeps_yield (ctx : Context) (st st' : VaultState)
    (effs : list Effect) (amount secret : Z) :
  redeemCollateral Poseidon_hash ctx st amount secret = Ok (st', effs) ->
  sentBy (address ctx) effs
    = amount + (balance ctx - collateralAmount st)
  /\ balance ctx - sentBy (address ctx) effs = collateralAmount st'.
Proof.
  intros H. apply redeem_transfers in H as (Hc & Hsent & _).
  rewrite Hsent, Hc. split; lia.
Qed.

(** X13. Solvency.  If the vault's balance covers its recorded
    collateral before a call, and neither the caller nor the protocol
    vault is the vault itself, then after any successful call the
    balance still covers the recorded collateral. *)
Theorem solvency_preserved (ctx : Context) (st st' : VaultState)
    (m : Method) (effs : list Effect) :
  collateralAmount st <= balance ctx ->
  sender ctx <> address ctx ->
  PROTOCOL_VAULT_ADDRESS <> address ctx ->
  invoke Poseidon_hash ctx st m = Ok (st', effs) ->
  collateralAmount st' <= balanceAfter ctx effs.
Proof.
  intros Hcov Hs Hp H.
  apply String.eqb_neq in Hs. apply String.eqb_neq in Hp.
  unfold balanceAfter.
  destruct m; cbn [invoke] in H.
  - apply deposit_Ok_inv in H as (_ & _ & _ & -> & ->).
    unfold receivedBy, sentBy. simpl.
    rewrite String.eqb_refl, Hs. lia.
  - apply redeem_transfers in H as (Hc & Hsent & Hrecv).
    rewrite Hsent, (Hrecv Hs Hp), Hc. lia.
  - apply mint_Ok_inv in H as (_ & _ & _ & _ & -> & ->).
    unfold receivedBy, sentBy. simpl. lia.
  - apply burn_Ok_inv in H as (_ & _ & _ & _ & -> & ->).
    unfold receivedBy, sentBy. simpl. lia.
  - apply liquidate_Ok_inv in H as (_ & -> & ->).
    unfold receivedBy, sentBy. simpl.
    rewrite String.eqb_refl, Hs. lia.
  - apply bind_Ok_inv in H as (hf & _ & H). injection H as <- <-.
    unfold receivedBy, sentBy. simpl. lia.
  - apply bind_Ok_inv in H as ([s b] & Ha & H). injection H as <- <-.
    unfold assertInteractionFlag in Ha.
    apply bind_Ok_inv in Ha as (u & _ & Ha). injection Ha as <- _.
    unfold receivedBy, sentBy. simpl. lia.
Qed.

(** X14. The interaction flag is a single-use token: right after a
    successful [mintZkUsd], [assertInteractionFlag] succeeds once,
    returns true, changes nothing but the flag, and a second call is
    rejected; it is rejected as well whenever the flag is down. *)
Theorem interaction_flag_single_use (ctx : Context) (st st1 : VaultState)
    (effs : list Effect) (recipient : PublicKey) (amount secret : Z) :
  mintZkUsd Poseidon_hash ctx st recipient amount secret = Ok (st1, effs) ->
  assertInteractionFlag st1 = Ok (set_interactionFlag false st1, true)
  /\ assertInteractionFlag (set_interactionFlag false st1)
     = Err PreconditionFailed
  /\ (interactionFlag st = false ->
      assertInteractionFlag st = Err PreconditionFailed).
Proof.
  intros H. apply mint_Ok_inv in H as (_ & _ & _ & _ & -> & _).
  split; [reflexivity|]. split; [reflexivity|].
  intros Hf. unfold assertInteractionFlag. rewrite Hf. reflexivity.
Qed.

(** X15. Every successful state-changing call emits an event that
    reports the collateral and debt amounts as they were before the
    call. *)
Theorem events_report_prior_amounts (ctx : Context) (st st' : VaultState)
    (m : Method) (effs : list Effect) :
  invoke Poseidon_hash ctx st m = Ok (st', effs) ->
  match m with
  | GetHealthFactor | AssertInteractionFlag => effs = []
  | _ => exists ev, In (EmitEvent ev) effs /\
                    reportedAmounts ev
                    = Some (collateralAmount st, debtAmount st)
  end.
Proof.
  intros H. destruct m; cbn [invoke] in H.
  - apply deposit_Ok_inv in H as (_ & _ & _ & _ & ->).
    eexists. split; [right; left; reflexivity | reflexivity].
  - apply redeem_Ok_inv in H as (_ & _ & _ & _ & _ & H).
    apply redeemPayout_Ok_inv in H as (_ & _ & _ & _ & ->).
    eexists.
    split; [apply in_or_app; right; right; left; reflexivity | reflexivity].
  - apply mint_Ok_inv in H as (_ & _ & _ & _ & _ & ->).
    eexists. split; [right; left; reflexivity | reflexivity].
  - apply burn_Ok_inv in H as (_ & _ & _ & _ & _ & ->).
    eexists. split; [right; left; reflexivity | reflexivity].
  - apply liquidate_Ok_inv in H as (_ & _ & ->).
    eexists. split; [right; right; left; reflexivity | reflexivity].
  - apply bind_Ok_inv in H as (hf & _ & H). injection H as _ <-. reflexivity.
  - apply bind_Ok_inv in H as (r & _ & H). injection H as _ <-. reflexivity.
Qed.

End Composition.

Lemma round_trips_witness :
  mkVault 100000000000 5000000000 (testHash [42]) false = aliceVault.
Proof.
  assert (H1 : depositCollateral testHash aliceCtx aliceVault 1000000000 42
               = Ok (mkVault 101000000000 5000000000 (testHash [42]) false,
                     [Send "alice"%string "vault"%string 1000000000;
                      EmitEvent (DepositCollateralEvent "vault"%string
                                   1000000000 100000000000 5000000000)]))
    by (vm_compute; reflexivity).
  assert (H2 : redeemCollateral testHash
                 (mkContext "vault"%string "alice"%string 101000000000
                    1000000000 20)
                 (mkVault 101000000000 5000000000 (testHash [42]) false)
                 1000000000 42
               = Ok (mkVault 100000000000 5000000000 (testHash [42]) false,
                     [Send "vault"%string "alice"%string 1000000000;
                      EmitEvent (RedeemCollateralEvent "vault"%string
                                   1000000000 101000000000 5000000000)]))
    by (vm_compute; reflexivity).
  exact (proj1 (round_trips testHash _ _ _ _ _ _ _ "alice"%string _ _ _) H1 H2).
Defined.

Lemma redeem_sweeps_yield_witness :
  sentBy "vault"%string
    [Send "vault"%string PROTOCOL_VAULT_ADDRESS 200;
     Send "vault"%string "alice"%string 1000000800;
     EmitEvent (RedeemCollateralEvent "vault"%string 1000000000
                  100000000000 5000000000)]
  = 1000000000 + (100000001000 - 100000000000).
Proof.
  assert (H : redeemCollateral testHash
                (mkContext "vault"%string "alice"%string 100000001000
                   1000000000 20)
                aliceVault 1000000000 42
              = Ok (mkVault 99000000000 5000000000 (testHash [42]) false,
                    [Send "vault"%string PROTOCOL_VAULT_ADDRESS 200;
                     Send "vault"%string "alice"%string 1000000800;
                     EmitEvent (RedeemCollateralEvent "vault"%string 1000000000
                                  100000000000 5000000000)]))
    by (vm_compute; reflexivity).
  exact (proj1 (redeem_sweeps_yield testHash _ _ _ _ _ _ H)).
Defined.

Lemma solvency_preserved_witness :
  collateralAmount (mkVault 101000000000 5000000000 (testHash [42]) false)
  <= balanceAfter aliceCtx
       [Send "alice"%string "vault"%string 1000000000;
        EmitEvent (DepositCollateralEvent "vault"%string
                     1000000000 100000000000 5000000000)].
Proof.
  assert (H : invoke testHash aliceCtx aliceVault
                (DepositCollateral 1000000000 42)
              = Ok (mkVault 101000000000 5000000000 (testHash [42]) false,
                    [Send "alice"%string "vault"%string 1000000000;
                     EmitEvent (DepositCollateralEvent "vault"%string
                                  1000000000 100000000000 5000000000)]))
    by (vm_compute; reflexivity).
  apply (solvency_preserved testHash aliceCtx aliceVault _
           (DepositCollateral 1000000000 42));
    [simpl; lia | discriminate | discriminate | exact H].
Defined.

Lemma interaction_flag_single_use_witness :
  assertInteractionFlag (set_interactionFlag true aliceVault)
  = Ok (set_interactionFlag false (set_interactionFlag true aliceVault), true).
Proof.
  assert (H : mintZkUsd testHash aliceCtx
                (mkVault 100000000000 0 (testHash [42]) false)
                "alice"%string 5000000000 42
              = Ok (set_interactionFlag true aliceVault,
                    [TokenMint "alice"%string 5000000000;
                     EmitEvent (MintZkUsdEvent "vault"%string 5000000000
                                  100000000000 0)]))
    by (vm_compute; reflexivity).
  exact (proj1 (interaction_flag_single_use testHash _ _ _ _ _ _ _ H)).
Defined.

Lemma events_report_prior_amounts_witness :
  exists ev, In (EmitEvent ev) burnEffects /\
             reportedAmounts ev
             = Some (collateralAmount aliceVault, debtAmount aliceVault).
Proof.
  assert (H : invoke testHash aliceCtx aliceVault (BurnZkUsd 1000000000 42)
              = Ok (burntVault, burnEffects)) by (vm_compute; reflexivity).
  exact (events_report_prior_amounts testHash aliceCtx aliceVault _ _ _ H).
Defined.

(** ** The constraints of [fieldIntegerDiv] *)

Lemma Field_reconstruct (x a : Z) :
  Field.canonical x -> Field.add a (Field.sub x a) = x.
Proof.
  intros Hx. unfold Field.add, Field.sub.
  rewrite Z.add_mod_idemp_r by discriminate.
  replace (a + (x - a)) with x by ring.
  apply Z.mod_small, Hx.
Qed.

Lemma Field_half_double (x : Z) :
  Field.canonical x ->
  Field.mul (Field.mul x ((Field.ORDER + 1) / 2)) 2 = x.
Proof.
  intros Hx. unfold Field.mul.
  rewrite Z.mul_mod_idemp_l by discriminate.
  replace (x * ((Field.ORDER + 1) / 2) * 2)
    with (x + x * Field.ORDER).
  - rewrite Z_mod_plus_full. apply Z.mod_small, Hx.
  - assert (H2 : (Field.ORDER + 1) / 2 * 2 = Field.ORDER + 1)
      by (vm_compute; reflexivity).
    rewrite <- Z.mul_assoc, H2. ring.
Qed.

(** X16. What the circuit of [fieldIntegerDiv] accepts.  The method is
    its constraints run on the honestly computed quotient.  For a field
    element x the non-negativity and reconstruction assertions hold for
    every quotient q, so q is accepted exactly when y is non-zero and
    the field remainder x - q * y is below y.  This does not pin q to
    floor(x / y): for every odd x and y = 2 the quotient x * 2^(-1) is
    accepted as well. *)
Theorem fieldIntegerDiv_accepted_quotients (q x y : Z) :
  Field.canonical x ->
  fieldIntegerDiv x y = fieldIntegerDivWith (Z.quot x y) x y
  /\ (fieldIntegerDivWith q x y = Ok q <->
      y <> 0 /\ Field.sub x (Field.mul q y) < y)
  /\ (x mod 2 = 1 ->
      exists q', q' <> x / 2 /\ fieldIntegerDivWith q' x 2 = Ok q').
Proof.
  intros Hx. split; [reflexivity|].
  assert (Hchar : forall q0 y0,
             fieldIntegerDivWith q0 x y0 = Ok q0 <->
             y0 <> 0 /\ Field.sub x (Field.mul q0 y0) < y0).
  { intros q0 y0. unfold fieldIntegerDivWith.
    rewrite (Field_reconstruct x (Field.mul q0 y0) Hx).
    unfold Field.equals, Field.greaterThanOrEqual, Field.lessThan.
    rewrite Z.eqb_refl.
    assert (H0 : (0 <=? Field.sub x (Field.mul q0 y0)) = true).
    { apply Z.leb_le. unfold Field.sub.
      apply Z.mod_pos_bound. reflexivity. }
    rewrite H0.
    destruct (y0 =? 0) eqn:Ey; simpl.
    - apply Z.eqb_eq in Ey. split; [discriminate | intros [Hn _]; contradiction].
    - apply Z.eqb_neq in Ey.
      destruct (Field.sub x (Field.mul q0 y0) <? y0) eqn:El; simpl.
      + apply Z.ltb_lt in El. split; [intros _; split; assumption | reflexivity].
      + apply Z.ltb_ge in El. split; [discriminate | intros [_ Hl]; lia]. }
  split; [apply Hchar|].
  intros Hodd. exists (Field.mul x ((Field.ORDER + 1) / 2)). split.
  - intros Heq.
    pose proof (Field_half_double x Hx) as Hd. rewrite Heq in Hd.
    pose proof (Z.div_mod x 2 ltac:(lia)) as Hdm.
    destruct Hx as [Hx0 Hx1].
    rewrite Field_mul_small in Hd by lia. lia.
  - apply Hchar. split; [discriminate|].
    rewrite (Field_half_double x Hx).
    unfold Field.sub. rewrite Z.sub_diag. reflexivity.
Qed.

Lemma fieldIntegerDiv_accepted_quotients_witness :
  exists q', q' <> 7 / 2 /\ fieldIntegerDivWith q' 7 2 = Ok q'.
Proof.
  assert (Hx : Field.canonical 7) by (unfold Field.canonical, Field.ORDER; lia).
  apply (proj2 (proj2 (fieldIntegerDiv_accepted_quotients 0 7 2 Hx))).
  reflexivity.
Defined.

(** ** The errors a call can end in *)

Lemma bind_Err_inv {A B : Type} (r : result A) (k : A -> result B) (e : Error) :
  bind r k = Err e -> r = Err e \/ exists a, r = Ok a /\ k a = Err e.
Proof. destruct r as [a|e0]; simpl; intros H; [eauto | left; congruence]. Qed.

Lemma assert_Err_inv (b : bool) (e0 e : Error) : assert b e0 = Err e -> e = e0.
Proof. destruct b; simpl; intros H; [discriminate | congruence]. Qed.

Lemma UInt64_add_Err_inv (x y : Z) (e : Error) :
  UInt64.add x y = Err e -> e = UInt64Overflow.
Proof. unfold UInt64.add. destruct (UInt64.inRangeb _); congruence. Qed.

Lemma UInt64_sub_Err_inv (x y : Z) (e : Error) :
  UInt64.sub x y = Err e -> e = UInt64Underflow.
Proof. unfold UInt64.sub. destruct (UInt64.inRangeb _); congruence. Qed.

Lemma UInt64_mul_Err_inv (x y : Z) (e : Error) :
  UInt64.mul x y = Err e -> e = UInt64Overflow.
Proof. unfold UInt64.mul. destruct (UInt64.inRangeb _); congruence. Qed.

Lemma redeemPayout_Err_inv (ctx : Context) (st : VaultState)
    (amount remaining : Z) (e : Error) :
  redeemPayout ctx st amount remaining = Err e ->
  e = UInt64Overflow \/ e = UInt64Underflow.
Proof.
  unfold redeemPayout. intros H.
  apply bind_Err_inv in H as [H | (a1 & _ & H)];
    [right; exact (UInt64_sub_Err_inv _ _ _ H)|].
  apply bind_Err_inv in H as [H | (a2 & _ & H)];
    [left; exact (UInt64_mul_Err_inv _ _ _ H)|].
  apply bind_Err_inv in H as [H | (a3 & _ & H)];
    [unfold UInt64.div in H;
     change (PROTOCOL_FEE_PRECISION =? 0) with false in H; discriminate|].
  apply bind_Err_inv in H as [H | (a4 & _ & H)];
    [right; exact (UInt64_sub_Err_inv _ _ _ H)|].
  apply bind_Err_inv in H as [H | (a5 & _ & H)];
    [left; exact (UInt64_add_Err_inv _ _ _ H)|].
  discriminate.
Qed.

(** X17. The errors each method can end in, for a vault with amounts in
    range and an oracle price in range.  [liquidate] fails only with
    [HEALTH_FACTOR_TOO_HIGH], [getHealthFactor] never fails, and no
    method ever fails inside the health-factor arithmetic (division by
    zero or a field assertion) or with one of the unused error
    messages. *)
Theorem invoke_errors (Poseidon_hash : list Z -> Z) (ctx : Context)
    (st : VaultState) (m : Method) (e : Error) :
  wfState st -> UInt64.inRange (oraclePrice ctx) ->
  invoke Poseidon_hash ctx st m = Err e ->
  match m with
  | DepositCollateral _ _ =>
      e = AMOUNT_ZERO \/ e = INVALID_SECRET \/ e = UInt64Overflow
  | RedeemCollateral _ _ =>
      e = BALANCE_ZERO \/ e = INVALID_SECRET \/ e = INSUFFICIENT_COLLATERAL \/
      e = HEALTH_FACTOR_TOO_LOW \/ e = UInt64Overflow \/ e = UInt64Underflow
  | MintZkUsd _ _ _ =>
      e = AMOUNT_ZERO \/ e = INVALID_SECRET \/ e = UInt64Overflow \/
      e = HEALTH_FACTOR_TOO_LOW
  | BurnZkUsd _ _ =>
      e = AMOUNT_ZERO \/ e = INVALID_SECRET \/ e = AMOUNT_EXCEEDS_DEBT
  | Liquidate => e = HEALTH_FACTOR_TOO_HIGH
  | GetHealthFactor => False
  | AssertInteractionFlag => e = PreconditionFailed
  end.
Proof.
  intros [Hc Hd] Hp H. destruct m; cbn [invoke] in H.
  - unfold depositCollateral in H.
    apply bind_Err_inv in H as [H | (u1 & _ & H)];
      [left; exact (assert_Err_inv _ _ _ H)|].
    apply bind_Err_inv in H as [H | (u2 & _ & H)];
      [right; left; exact (assert_Err_inv _ _ _ H)|].
    apply bind_Err_inv in H as [H | (c' & _ & H)];
      [right; right; exact (UInt64_add_Err_inv _ _ _ H) | discriminate].
  - unfold redeemCollateral in H.
    apply bind_Err_inv in H as [H | (u1 & _ & H)];
      [left; exact (assert_Err_inv _ _ _ H)|].
    apply bind_Err_inv in H as [H | (u2 & _ & H)];
      [right; left; exact (assert_Err_inv _ _ _ H)|].
    apply bind_Err_inv in H as [H | (u3 & _ & H)];
      [right; right; left; exact (assert_Err_inv _ _ _ H)|].
    apply bind_Err_inv in H as [H | (rem & Hrem & H)];
      [do 5 right; exact (UInt64_sub_Err_inv _ _ _ H)|].
    apply UInt64_sub_inv in Hrem as [-> Hr].
    rewrite calculateHealthFactor_ok in H by assumption. cbn [bind] in H.
    apply bind_Err_inv in H as [H | (u6 & _ & H)];
      [do 3 right; left; exact (assert_Err_inv _ _ _ H)|].
    apply redeemPayout_Err_inv in H as [-> | ->]; tauto.
  - unfold mintZkUsd in H.
    apply bind_Err_inv in H as [H | (u1 & _ & H)];
      [left; exact (assert_Err_inv _ _ _ H)|].
    apply bind_Err_inv in H as [H | (u2 & _ & H)];
      [right; left; exact (assert_Err_inv _ _ _ H)|].
    apply bind_Err_inv in H as [H | (d' & Hd' & H)];
      [right; right; left; exact (UInt64_add_Err_inv _ _ _ H)|].
    apply UInt64_add_inv in Hd' as [-> Hr].
    rewrite calculateHealthFactor_ok in H by assumption. cbn [bind] in H.
    apply bind_Err_inv in H as [H | (u5 & _ & H)];
      [do 3 right; exact (assert_Err_inv _ _ _ H)|].
    rewrite UInt64_add_ok in H by exact Hr. discriminate.
  - unfold burnZkUsd in H.
    apply bind_Err_inv in H as [H | (u1 & Hu1 & H)];
      [left; exact (assert_Err_inv _ _ _ H)|].
    apply bind_Err_inv in H as [H | (u2 & _ & H)];
      [right; left; exact (assert_Err_inv _ _ _ H)|].
    apply bind_Err_inv in H as [H | (u3 & Hu3 & H)];
      [right; right; exact (assert_Err_inv _ _ _ H)|].
    apply assert_Ok_inv, Z.ltb_lt in Hu1.
    apply assert_Ok_inv, Z.leb_le in Hu3.
    rewrite UInt64_sub_ok in H
      by (unfold UInt64.inRange, UInt64.zero in *; lia).
    discriminate.
  - unfold liquidate in H.
    rewrite calculateHealthFactor_ok in H by assumption. cbn [bind] in H.
    apply bind_Err_inv in H as [H | (u & _ & H)];
      [exact (assert_Err_inv _ _ _ H) | discriminate].
  - unfold getHealthFactor in H.
    rewrite calculateHealthFactor_ok in H by assumption. discriminate.
  - apply bind_Err_inv in H as [H | (r & _ & H)]; [|discriminate].
    unfold assertInteractionFlag in H.
    apply bind_Err_inv in H as [H | (u & _ & H)];
      [exact (assert_Err_inv _ _ _ H) | discriminate].
Qed.

Lemma invoke_errors_witness :
  INSUFFICIENT_COLLATERAL = BALANCE_ZERO \/
  INSUFFICIENT_COLLATERAL = INVALID_SECRET \/
  INSUFFICIENT_COLLATERAL = INSUFFICIENT_COLLATERAL \/
  INSUFFICIENT_COLLATERAL = HEALTH_FACTOR_TOO_LOW \/
  INSUFFICIENT_COLLATERAL = UInt64Overflow \/
  INSUFFICIENT_COLLATERAL = UInt64Underflow.
Proof.
  assert (Hp : UInt64.inRange (oraclePrice aliceCtx)) by (simpl; in_range).
  assert (H : invoke testHash aliceCtx aliceVault
                (RedeemCollateral 100000000001 42)
              = Err INSUFFICIENT_COLLATERAL) by (vm_compute; reflexivity).
  exact (invoke_errors testHash aliceCtx aliceVault
           (RedeemCollateral 100000000001 42) _ aliceVault_wf Hp H).
Defined.

(** ** Closed forms of the guards *)

Lemma spec_healthFactor_safe_iff (c d p : Z) :
  0 < d ->
  (MIN_HEALTH_FACTOR <= spec_healthFactor c d p <->
   3 * d <= 2 * (c * p / UNIT_PRECISION)).
Proof.
  intros Hpos.
  unfold spec_healthFactor, spec_safeDiv, spec_maxAllowedDebt,
    MIN_HEALTH_FACTOR.
  replace (d =? 0) with false by (symmetry; apply Z.eqb_neq; lia).
  set (v := c * p / UNIT_PRECISION).
  rewrite (div_ge_iff (v * 100 / 150 * 100) d 100 Hpos).
  assert (H150 : d <= v * 100 / 150 <-> 150 * d <= v * 100)
    by (apply div_ge_iff; lia).
  lia.
Qed.

Lemma spec_healthFactor_liquidatable_iff (c d p : Z) :
  0 < d ->
  (spec_healthFactor c d p <= MIN_HEALTH_FACTOR <->
   100 * (c * p / UNIT_PRECISION * 100 / 150) < 101 * d).
Proof.
  intros Hpos.
  unfold spec_healthFactor, spec_safeDiv, spec_maxAllowedDebt,
    MIN_HEALTH_FACTOR.
  replace (d =? 0) with false by (symmetry; apply Z.eqb_neq; lia).
  set (w := c * p / UNIT_PRECISION * 100 / 150).
  pose proof (div_ge_iff (w * 100) d 101 Hpos). lia.
Qed.

(** X18. [safeDiv] never fails on a field-element numerator and a
    non-negative denominator: it returns the maximum [UInt64] for a
    zero denominator and floor(numerator / denominator) otherwise. *)
Theorem safeDiv_total (numerator denominator : Z) :
  Field.canonical numerator -> 0 <= denominator ->
  safeDiv numerator denominator
  = Ok (if denominator =? 0 then UInt64.MAXINT
        else numerator / denominator).
Proof. intros Hn Hd. apply (safeDiv_ok numerator denominator Hn Hd). Qed.

Lemma safeDiv_total_witness : safeDiv 17 5 = Ok (17 / 5).
Proof.
  assert (Hn : Field.canonical 17) by (unfold Field.canonical, Field.ORDER; lia).
  assert (Hd : 0 <= 5) by lia.
  exact (safeDiv_total 17 5 Hn Hd).
Defined.

Section ClosedForms.

Variable Poseidon_hash : list Z -> Z.

(** X19. [mintZkUsd] succeeds exactly when the amount is positive, the
    secret is right, the new debt fits in a [UInt64], three times the
    new debt is at most twice the collateral value
    floor(collateral * price / 1e9), and the health factor for the new
    debt is at most 2^64 + 99.  The last condition comes from the guard
    being a 64-bit range check on a health factor that is itself not
    range-checked: a mint against very large collateral and very small
    debt is rejected. *)
Theorem mintZkUsd_succeeds_iff (ctx : Context) (st : VaultState)
    (recipient : PublicKey) (amount secret : Z) :
  wfState st -> UInt64.inRange (oraclePrice ctx) ->
  (isOk (mintZkUsd Poseidon_hash ctx st recipient amount secret) = true <->
   0 < amount /\ opens Poseidon_hash st secret /\
   debtAmount st + amount <= UInt64.MAXINT /\
   3 * (debtAmount st + amount)
   <= 2 * (collateralAmount st * oraclePrice ctx / UNIT_PRECISION) /\
   collateralAmount st * oraclePrice ctx / UNIT_PRECISION * 100 / 150 * 100
     / (debtAmount st + amount)
   <= UInt64.MAXINT + 100).
Proof.
  intros [Hc Hd] Hp.
  assert (Hval : forall d, 0 < d ->
            spec_healthFactor (collateralAmount st) d (oraclePrice ctx)
            = collateralAmount st * oraclePrice ctx / UNIT_PRECISION
                * 100 / 150 * 100 / d).
  { intros d Hd0. unfold spec_healthFactor, spec_safeDiv, spec_maxAllowedDebt.
    replace (d =? 0) with false by (symmetry; apply Z.eqb_neq; lia).
    reflexivity. }
  split.
  - intros H.
    destruct (mintZkUsd Poseidon_hash ctx st recipient amount secret)
      as [[st' effs]|e] eqn:E; [|discriminate].
    pose proof (mint_Ok_guard _ _ _ _ _ _ _ _ E) as (hf & Hhf & Hge & Hle).
    apply mint_Ok_inv in E as (Hpos & Hs & Hr & _).
    rewrite calculateHealthFactor_ok in Hhf by assumption.
    injection Hhf as <-.
    assert (Hd0 : 0 < debtAmount st + amount)
      by (unfold UInt64.inRange in Hd; lia).
    apply spec_healthFactor_safe_iff in Hge; [|exact Hd0].
    rewrite (Hval _ Hd0) in Hle.
    repeat split; try assumption. apply Hr.
  - intros (Hpos & Hs & Hsum & Hratio & Hfit).
    assert (Hr : UInt64.inRange (debtAmount st + amount))
      by (unfold UInt64.inRange in *; lia).
    assert (Hd0 : 0 < debtAmount st + amount)
      by (unfold UInt64.inRange in Hd; lia).
    rewrite (mint_success Poseidon_hash ctx st recipient amount secret Hpos Hs
               Hr (spec_healthFactor (collateralAmount st)
                     (debtAmount st + amount) (oraclePrice ctx)));
      [reflexivity | apply calculateHealthFactor_ok; assumption |].
    split.
    + apply spec_healthFactor_safe_iff; [exact Hd0 | exact Hratio].
    + rewrite (Hval _ Hd0). exact Hfit.
Qed.

End ClosedForms.

(** X20. [liquidate] succeeds exactly when the vault owes something and
    100 * floor(value * 100 / 150) < 101 * debt, with value the
    collateral value floor(collateral * price / 1e9).  Because the
    health factor is a rounded-down integer, this includes vaults whose
    collateral value is between 150% and about 151.5% of the debt. *)
Theorem liquidate_succeeds_iff (ctx : Context) (st : VaultState) :
  wfState st -> UInt64.inRange (oraclePrice ctx) ->
  (isOk (liquidate ctx st) = true <->
   0 < debtAmount st /\
   100 * (collateralAmount st * oraclePrice ctx / UNIT_PRECISION * 100 / 150)
   < 101 * debtAmount st).
Proof.
  intros [Hc Hd] Hp.
  pose proof (calculateHealthFactor_ok _ _ _ Hc Hd Hp) as Hhf.
  destruct (Z.eq_dec (debtAmount st) 0) as [H0|Hne].
  - split; [|lia]. intros H.
    rewrite (liquidate_health_factor_too_high ctx st _ Hhf) in H;
      [discriminate|].
    unfold spec_healthFactor, spec_safeDiv. rewrite H0. reflexivity.
  - assert (Hpos : 0 < debtAmount st) by (unfold UInt64.inRange in Hd; lia).
    pose proof (spec_healthFactor_liquidatable_iff (collateralAmount st)
                  (debtAmount st) (oraclePrice ctx) Hpos) as Hiff.
    split.
    + intros H. split; [exact Hpos|]. apply Hiff.
      destruct (Z_le_gt_dec (spec_healthFactor (collateralAmount st)
                    (debtAmount st) (oraclePrice ctx)) MIN_HEALTH_FACTOR)
        as [Hle|Hgt]; [exact Hle|].
      rewrite (liquidate_health_factor_too_high ctx st _ Hhf) in H by lia.
      discriminate.
    + intros [_ Hlt]. apply Hiff in Hlt.
      rewrite (liquidate_success ctx st _ Hhf Hlt). reflexivity.
Qed.

Lemma mintZkUsd_succeeds_iff_witness :
  isOk (mintZkUsd testHash aliceCtx aliceVault "bob"%string 61666666666 42)
  = true.
Proof.
  assert (Hp : UInt64.inRange (oraclePrice aliceCtx)) by (simpl; in_range).
  apply (proj2 (mintZkUsd_succeeds_iff testHash aliceCtx aliceVault
                  "bob"%string 61666666666 42 aliceVault_wf Hp)).
  split; [lia|]. split; [reflexivity|].
  split; [simpl; rewrite MAXINT_value; lia|].
  split; vm_compute; discriminate.
Defined.

Lemma liquidate_succeeds_iff_witness :
  isOk (liquidate aliceCtx
          (mkVault 1510000000 1000000000 (testHash [42]) false)) = true.
Proof.
  assert (Hwf : wfState (mkVault 1510000000 1000000000 (testHash [42]) false))
    by (split; simpl; in_range).
  assert (Hp : UInt64.inRange (oraclePrice aliceCtx)) by (simpl; in_range).
  apply (proj2 (liquidate_succeeds_iff aliceCtx _ Hwf Hp)).
  split; [simpl; lia|]. vm_compute. reflexivity.
Defined.

(** ** A health factor beyond 64 bits *)

(** With a collateral of 3e14 at price 1e12 and a debt of one unit the
    health factor is 2e19, above 2^64 + 99: the range-checked guard
    rejects the mint of that unit, and a redemption from the same
    vault, with [HEALTH_FACTOR_TOO_LOW]. *)
Example health_factor_beyond_64_bits :
  calculateHealthFactor 300000000000000 1 1000000000000
  = Ok 20000000000000000000
  /\ UInt64.MAXINT + 100 < 20000000000000000000
  /\ mintZkUsd testHash
       (mkContext "vault"%string "alice"%string 300000000000000
          1000000000000 20)
       (mkVault 300000000000000 0 (testHash [42]) false)
       "alice"%string 1 42
     = Err HEALTH_FACTOR_TOO_LOW
  /\ redeemCollateral testHash
       (mkContext "vault"%string "alice"%string 300000000000000
          1000000000000 20)
       (mkVault 300000000000000 1 (testHash [42]) false)
       0 42
     = Err HEALTH_FACTOR_TOO_LOW.
Proof. repeat split; vm_compute; reflexivity. Qed.
